(** * Snerge bot: a shallow embedding of [snerge/bot.py] and
      [snerge/guess_handler.py], with the properties of its scheduler,
      quote generator, cosmetic transform, command handler, shutdown and
      guess bookkeeping.

    Modelling conventions.
    - Python [int] is [Z]; [str] is [string] (ASCII text: [len] is the number
      of characters, [lower] folds [A-Z]); a [dict] is an association list in
      insertion order with each key once; a [set] of integers is a [gset Z].
    - The number handed to [get_score] is an exact number (an [int] or a
      [Fraction], a rational) or a [float], an IEEE binary64 value with its
      infinities and NaN, on which arithmetic rounds to nearest, ties to
      even.
    - [loop.time()] is a finite non-negative float; it is modelled by the
      rational it denotes ([Q]).  The one subtraction the bot performs on it
      ([loop.time() - last_message], with [0 <= last_message <= loop.time()])
      is exact in binary floating point, and Python compares a float with an
      [int] exactly, so the comparison is the comparison of rationals.
    - The collaborators the bot only calls (the prose generator, the random
      module, the chat transport) are oracles indexed by the number of calls
      made so far; the calls themselves are counted and logged in the world.
    - A coroutine is a computation in a state-and-exception monad over the
      world; an exception keeps the world as it was when it was raised. *)

From Stdlib Require Import Ascii String QArith Qabs Lqa SpecFloat.
From stdpp Require Import base numbers list strings gmap sorting.

Local Open Scope string_scope.
Local Open Scope Z_scope.

(** * Part I: the embedding of the sources *)

(** ** Python string primitives used by the bot *)

Module PyStr.

(** [len(s)] *)
Definition len (s : string) : Z := Z.of_nat (String.length s).

Definition lower_ascii (c : ascii) : ascii :=
  let n := nat_of_ascii c in
  if ((65 <=? n) && (n <=? 90))%nat then ascii_of_nat (n + 32) else c.

(** [s.lower()] *)
Fixpoint lower (s : string) : string :=
  match s with
  | EmptyString => EmptyString
  | String c r => String (lower_ascii c) (lower r)
  end.

(** [s.startswith(p)] *)
Fixpoint startswith (p s : string) : bool :=
  match p, s with
  | EmptyString, _ => true
  | String _ _, EmptyString => false
  | String a p', String b s' => if Ascii.eqb a b then startswith p' s' else false
  end.

(** [new.join(s)] bracketed by [new]: what [s.replace("", new)] yields. *)
Fixpoint intersperse (new s : string) : string :=
  match s with
  | EmptyString => new
  | String c r => new ++ String c (intersperse new r)
  end.

(** Left-to-right scan of [s.replace(old, new)] for a non-empty [old];
    [skip] counts the characters of a match just replaced that are still
    to be consumed, so that occurrences never overlap. *)
Fixpoint replace_scan (old new : string) (skip : nat) (s : string) : string :=
  match s with
  | EmptyString => EmptyString
  | String c r =>
      match skip with
      | S k => replace_scan old new k r
      | O =>
          if startswith old s
          then new ++ replace_scan old new (String.length old - 1) r
          else String c (replace_scan old new O r)
      end
  end.

(** [s.replace(old, new)] *)
Definition replace (old new s : string) : string :=
  match old with
  | EmptyString => intersperse new s
  | String _ _ => replace_scan old new O s
  end.

End PyStr.

(** ** Data model *)

(** What [Channel.get_chatter] hands back: a full [Chatter], a
    [PartialChatter], or [None]. *)
Inductive ChatterLookup := IsChatter | IsPartialChatter | NoChatter.

(** The connected channel handle of the chat transport. *)
Record Channel := {
  channel_name : string;
  get_chatter : string -> ChatterLookup
}.

Record Author := { name : string; is_mod : bool }.

Record Message := { author : option Author; content : string }.

(** Modelled from the spec: the [Config] class of [snerge.config], which the
    bot reads but which is not part of the sources at hand.  Section 3 of the
    specification gives it three integer ranges of seconds and the range of
    quote lengths, each a pair [(min, max)]; the bot unpacks each pair with
    [*]. *)
Record Config := {
  channel : string;
  startup_probe : Z * Z;
  chat_active_probe : Z * Z;
  auto_quote_time : Z * Z;
  quote_length : Z * Z
}.

(** The invariant section 3 puts on a configuration. *)
Definition range_ok (r : Z * Z) : Prop := 0 <= r.1 /\ r.1 <= r.2.

Record config_ok (c : Config) : Prop := {
  startup_probe_ok : range_ok (startup_probe c);
  chat_active_probe_ok : range_ok (chat_active_probe c);
  auto_quote_time_ok : range_ok (auto_quote_time c);
  quote_length_ok : range_ok (quote_length c)
}.

(** The coroutines the bot hands to [loop.create_task]. *)
Inductive Task := TQueueQuote | TSendQuote.

(** An [asyncio.TimerHandle] made by [loop.call_later].  The only callback
    the bot ever registers is [lambda: loop.create_task(...)], so a handle
    records the task its callback creates. *)
Record Timer := {
  tid : nat;
  twhen : Q;
  tcallback : Task;
  tcancelled : bool;
  tfired : bool
}.

(** What the outside world can observe. *)
Inductive Event :=
| EvJoin (ch : string)
| EvSend (text : string) (delivered : bool)
| EvClose.

Inductive Exn := ValueError | SendFailure.

(** The behaviour of the collaborators, call by call. *)
Record Env := {
  statement_of : nat -> Z -> string;      (* ProseGen.make_statement *)
  draw_of : nat -> Z;                     (* entropy behind random.randint *)
  send_succeeds : nat -> bool;            (* Channel.send *)
  channel_of : nat -> option Channel      (* Client.get_channel *)
}.

Record World := {
  (* the fields of the Bot object *)
  nick : string;
  config : Config;
  target : option Channel;
  last_message : Z;
  _timer : option nat;
  _stop : bool;
  (* the asyncio event loop *)
  now : Q;
  ready : list Task;
  timers : list Timer;
  (* the collaborators *)
  env : Env;
  statements : nat;
  draws : nat;
  sends : nat;
  joins : nat;
  log : list Event
}.

Definition set_target (t : option Channel) (w : World) : World :=
  {| nick := nick w; config := config w; target := t;
     last_message := last_message w; _timer := _timer w; _stop := _stop w;
     now := now w; ready := ready w; timers := timers w; env := env w;
     statements := statements w; draws := draws w; sends := sends w;
     joins := joins w; log := log w |}.

Definition set_last_message (t : Z) (w : World) : World :=
  {| nick := nick w; config := config w; target := target w;
     last_message := t; _timer := _timer w; _stop := _stop w;
     now := now w; ready := ready w; timers := timers w; env := env w;
     statements := statements w; draws := draws w; sends := sends w;
     joins := joins w; log := log w |}.

Definition set_timer (h : option nat) (w : World) : World :=
  {| nick := nick w; config := config w; target := target w;
     last_message := last_message w; _timer := h; _stop := _stop w;
     now := now w; ready := ready w; timers := timers w; env := env w;
     statements := statements w; draws := draws w; sends := sends w;
     joins := joins w; log := log w |}.

Definition set_stop (b : bool) (w : World) : World :=
  {| nick := nick w; config := config w; target := target w;
     last_message := last_message w; _timer := _timer w; _stop := b;
     now := now w; ready := ready w; timers := timers w; env := env w;
     statements := statements w; draws := draws w; sends := sends w;
     joins := joins w; log := log w |}.

Definition set_now (t : Q) (w : World) : World :=
  {| nick := nick w; config := config w; target := target w;
     last_message := last_message w; _timer := _timer w; _stop := _stop w;
     now := t; ready := ready w; timers := timers w; env := env w;
     statements := statements w; draws := draws w; sends := sends w;
     joins := joins w; log := log w |}.

Definition set_ready (r : list Task) (w : World) : World :=
  {| nick := nick w; config := config w; target := target w;
     last_message := last_message w; _timer := _timer w; _stop := _stop w;
     now := now w; ready := r; timers := timers w; env := env w;
     statements := statements w; draws := draws w; sends := sends w;
     joins := joins w; log := log w |}.

Definition set_timers (ts : list Timer) (w : World) : World :=
  {| nick := nick w; config := config w; target := target w;
     last_message := last_message w; _timer := _timer w; _stop := _stop w;
     now := now w; ready := ready w; timers := ts; env := env w;
     statements := statements w; draws := draws w; sends := sends w;
     joins := joins w; log := log w |}.

Definition count_statement (w : World) : World :=
  {| nick := nick w; config := config w; target := target w;
     last_message := last_message w; _timer := _timer w; _stop := _stop w;
     now := now w; ready := ready w; timers := timers w; env := env w;
     statements := S (statements w); draws := draws w; sends := sends w;
     joins := joins w; log := log w |}.

Definition count_draw (w : World) : World :=
  {| nick := nick w; config := config w; target := target w;
     last_message := last_message w; _timer := _timer w; _stop := _stop w;
     now := now w; ready := ready w; timers := timers w; env := env w;
     statements := statements w; draws := S (draws w); sends := sends w;
     joins := joins w; log := log w |}.

Definition record_send (text : string) (ok : bool) (w : World) : World :=
  {| nick := nick w; config := config w; target := target w;
     last_message := last_message w; _timer := _timer w; _stop := _stop w;
     now := now w; ready := ready w; timers := timers w; env := env w;
     statements := statements w; draws := draws w; sends := S (sends w);
     joins := joins w; log := log w ++ [EvSend text ok] |}.

Definition record_join (ch : string) (w : World) : World :=
  {| nick := nick w; config := config w; target := target w;
     last_message := last_message w; _timer := _timer w; _stop := _stop w;
     now := now w; ready := ready w; timers := timers w; env := env w;
     statements := statements w; draws := draws w; sends := sends w;
     joins := S (joins w); log := log w ++ [EvJoin ch] |}.

Definition record_close (w : World) : World :=
  {| nick := nick w; config := config w; target := target w;
     last_message := last_message w; _timer := _timer w; _stop := _stop w;
     now := now w; ready := ready w; timers := timers w; env := env w;
     statements := statements w; draws := draws w; sends := sends w;
     joins := joins w; log := log w ++ [EvClose] |}.

(** ** The monad of coroutine bodies *)

(** A body returns, raises, or is still spinning in a loop when the bound
    put on that loop is used up. *)
Inductive Res (A : Type) :=
| Ok (a : A) (w : World)
| Raise (e : Exn) (w : World)
| Spin (w : World).
Arguments Ok {A} a w.
Arguments Raise {A} e w.
Arguments Spin {A} w.

Definition M (A : Type) : Type := World -> Res A.

Global Instance M_ret : MRet M := fun A a w => Ok a w.

Global Instance M_bind : MBind M := fun A B k m w =>
  match m w with
  | Ok a w' => k a w'
  | Raise e w' => Raise e w'
  | Spin w' => Spin w'
  end.

Definition get : M World := fun w => Ok w w.
Definition modify (f : World -> World) : M unit := fun w => Ok tt (f w).
Definition raise {A} (e : Exn) : M A := fun w => Raise e w.

(** The world a call leaves behind, however it ended. *)
Definition world_of {A} (r : Res A) : World :=
  match r with Ok _ w | Raise _ w | Spin w => w end.

(** ** Primitives of the collaborators *)

(** [quotes.make_statement(min_length)]: never fails, no promise on the
    length of what comes back. *)
Definition make_statement (min_length : Z) : M string :=
  fun w => Ok (statement_of (env w) (statements w) min_length) (count_statement w).

(** [random.randint(a, b)]: an integer of the closed range, [ValueError] on
    an empty range. *)
Definition randint (a b : Z) : M Z :=
  fun w =>
    if b <? a then Raise ValueError w
    else Ok (a + draw_of (env w) (draws w) mod (b - a + 1)) (count_draw w).

(** [await channel.send(text)]: the attempt is observable whether or not it
    is delivered; a failed send raises. *)
Definition send (text : string) : M unit :=
  fun w =>
    let ok := send_succeeds (env w) (sends w) in
    if ok then Ok tt (record_send text ok w)
    else Raise SendFailure (record_send text ok w).

(** [await self.close()] *)
Definition close : M unit := modify record_close.

(** [loop.time()] *)
Definition loop_time : M Q := fun w => Ok (now w) w.

(** [loop.create_task(coro)] *)
Definition create_task (t : Task) : M unit :=
  modify (fun w => set_ready (ready w ++ [t]) w).

(** [loop.call_later(delay, lambda: loop.create_task(coro))] *)
Definition call_later (delay : Z) (cb : Task) : M nat :=
  fun w =>
    let h := length (timers w) in
    Ok h (set_timers (timers w ++
            [{| tid := h; twhen := (now w + inject_Z delay)%Q; tcallback := cb;
                tcancelled := false; tfired := false |}]) w).

Definition cancel_timer (h : nat) (t : Timer) : Timer :=
  if (tid t =? h)%nat
  then {| tid := tid t; twhen := twhen t; tcallback := tcallback t;
          tcancelled := true; tfired := tfired t |}
  else t.

(** [handle.cancel()] *)
Definition cancel (h : nat) : M unit :=
  modify (fun w => set_timers (map (cancel_timer h) (timers w)) w).

(** [int(x)] on a float: truncation towards zero. *)
Definition int_of_time (t : Q) : Z := Z.quot (Qnum t) (Z.pos (Qden t)).

(** [a < b] on rationals, as a boolean. *)
Definition Qlt_bool (a b : Q) : bool :=
  (Qnum a * Z.pos (Qden b) <? Qnum b * Z.pos (Qden a)).

(** ** [bot.py] *)

Definition fallback_quote : string := "I don't like coffee.".

(** The [for _ in range(n)] loop of [get_quote]. *)
Fixpoint get_quote_loop (n : nat) (min_length max_length : Z) : M string :=
  match n with
  | O => mret fallback_quote
  | S n' =>
      wisdom ← make_statement min_length;
      if (min_length <? PyStr.len wisdom) && (PyStr.len wisdom <? max_length)
      then mret wisdom
      else get_quote_loop n' min_length max_length
  end.

Definition get_quote (min_length max_length : Z) : M string :=
  get_quote_loop 100 min_length max_length.

Definition owo_magic (non_owo_string : string) : string :=
  PyStr.replace "l" "w"
    (PyStr.replace "L" "W"
      (PyStr.replace "r" "w"
        (PyStr.replace "R" "W"
          (PyStr.replace "ove" "wuw" non_owo_string)))).

Definition send_quote : M unit :=
  w ← get;
  match target w with
  | None => mret tt
  | Some _ =>
      quote ← get_quote (quote_length (config w)).1 (quote_length (config w)).2;
      d ← randint 0 200;
      if d =? 0
      then send ("[UwU] " ++ owo_magic quote ++ " [UwU]")
      else send ("sergeSnerge " ++ quote ++ " sergeSnerge")
  end.

Definition queue_quote : M unit :=
  w ← get;
  if _stop w then mret tt
  else
    next_call ←
      match target w with
      | None => randint (startup_probe (config w)).1 (startup_probe (config w)).2
      | Some _ =>
          t ← loop_time;
          if Qlt_bool (inject_Z (chat_active_probe (config w)).1)
                      (t - inject_Z (last_message w))
          then randint (chat_active_probe (config w)).1 (chat_active_probe (config w)).2
          else
            create_task TSendQuote;;
            randint (auto_quote_time (config w)).1 (auto_quote_time (config w)).2
      end;
    h ← call_later next_call TQueueQuote;
    modify (set_timer (Some h)).

Definition farewell : string := "sergeSnerge Sleepy time!".

Definition stop : M unit :=
  modify (set_stop true);;
  w ← get;
  match _timer w with Some h => cancel h | None => mret tt end;;
  match target w with Some _ => send farewell | None => mret tt end;;
  close.

Definition is_snerge_command (content : string) : bool :=
  String.eqb content "!snerge" || PyStr.startswith "!snerge " content.

Definition event_message (message : Message) : M unit :=
  w ← get;
  match author message with
  | None => mret tt
  | Some a =>
      if String.eqb (PyStr.lower (name a)) (PyStr.lower (nick w)) then mret tt
      else
        t ← loop_time;
        modify (set_last_message (int_of_time t));;
        match target w with
        | None => mret tt
        | Some ch =>
            match get_chatter ch (name a) with
            | IsChatter =>
                if is_mod a then
                  if is_snerge_command (PyStr.lower (content message))
                  then send_quote
                  else mret tt
                else mret tt
            | _ => mret tt
            end
        end
  end.

Definition greeting : string := "Never fear, Snerge is here!".

(** The [while not self.target] loop of [event_ready], unrolled at most
    [fuel] times. *)
Fixpoint join_until_target (fuel : nat) : M unit :=
  fun w =>
    match target w with
    | Some _ => Ok tt w
    | None =>
        match fuel with
        | O => Spin w
        | S fuel' =>
            let w1 := record_join (channel (config w)) w in
            join_until_target fuel' (set_target (channel_of (env w) (joins w)) w1)
        end
    end.

Definition event_ready (fuel : nat) : M unit :=
  join_until_target fuel;;
  send greeting;;
  create_task TQueueQuote.

(** The world [Bot.__init__] leaves behind, on a loop whose clock shows
    [t0]. *)
Definition init_world (e : Env) (c : Config) (n : string) (t0 : Q) : World :=
  {| nick := n; config := c; target := None; last_message := 0;
     _timer := None; _stop := false;
     now := t0; ready := []; timers := [];
     env := e; statements := 0; draws := 0; sends := 0; joins := 0; log := [] |}.

(** ** The event loop around the bot *)

(** What can happen next: the transport dispatches [event_ready] or a chat
    message, the loop runs the task at the head of its queue or fires a
    timer that is due, time passes, or the process is told to stop.  Each
    handler runs to its end before the next thing happens: the suspension
    points of the handlers ([await send], [await close]) all come after
    their last access to the scheduler state. *)
Inductive Action :=
| Ready (fuel : nat)
| Incoming (m : Message)
| RunTask
| Fire (h : nat)
| Elapse (d : Q)
| Stop.

(** The world, and how often the transport has dispatched [event_ready]. *)
Record Sys := { world : World; readies : nat }.

Definition run_task (t : Task) : M unit :=
  match t with
  | TQueueQuote => queue_quote
  | TSendQuote => send_quote
  end.

(** A timer that is neither cancelled nor fired is still outstanding. *)
Definition live (t : Timer) : bool := negb (tcancelled t) && negb (tfired t).

Definition pending (w : World) : list Timer := List.filter live (timers w).

Definition fire_timer (h : nat) (t : Timer) : Timer :=
  if (tid t =? h)%nat
  then {| tid := tid t; twhen := twhen t; tcallback := tcallback t;
          tcancelled := tcancelled t; tfired := true |}
  else t.

(** The loop runs the callback of timer [h], if it is outstanding and due. *)
Definition fire (h : nat) (w : World) : option World :=
  match List.find (fun t => (tid t =? h)%nat) (timers w) with
  | Some t =>
      if live t && Qle_bool (twhen t) (now w)
      then Some (set_ready (ready w ++ [tcallback t])
                   (set_timers (map (fire_timer h) (timers w)) w))
      else None
  | None => None
  end.

Definition exec (a : Action) (s : Sys) : option Sys :=
  let w := world s in
  match a with
  | Ready fuel =>
      Some {| world := world_of (event_ready fuel w); readies := S (readies s) |}
  | Incoming m =>
      Some {| world := world_of (event_message m w); readies := readies s |}
  | RunTask =>
      match ready w with
      | [] => None
      | t :: rest =>
          Some {| world := world_of (run_task t (set_ready rest w));
                  readies := readies s |}
      end
  | Fire h =>
      match fire h w with
      | Some w' => Some {| world := w'; readies := readies s |}
      | None => None
      end
  | Elapse d =>
      if Qle_bool 0 d
      then Some {| world := set_now (now w + d)%Q w; readies := readies s |}
      else None
  | Stop =>
      Some {| world := world_of (stop w); readies := readies s |}
  end.

Fixpoint run (acts : list Action) (s : Sys) : option Sys :=
  match acts with
  | [] => Some s
  | a :: rest =>
      match exec a s with
      | Some s' => run rest s'
      | None => None
      end
  end.

(** The system as [Bot.__init__] leaves it. *)
Definition boot (e : Env) (c : Config) (n : string) (t0 : Q) : Sys :=
  {| world := init_world e c n t0; readies := 0 |}.

Definition is_tick (t : Task) : bool :=
  match t with TQueueQuote => true | TSendQuote => false end.

(** Ticks waiting in the queue of the loop. *)
Definition queued (w : World) : nat := length (List.filter is_tick (ready w)).

(** ** [guess_handler.py] *)

Module GuessHandler.

(** ** A Python [dict] of guesses: insertion order, each name once *)

Fixpoint lookup (name : string) (d : list (string * Z)) : option Z :=
  match d with
  | [] => None
  | (k, v) :: rest => if String.eqb k name then Some v else lookup name rest
  end.

(** [d[name] = value]: an existing entry keeps its place. *)
Fixpoint store (name : string) (value : Z) (d : list (string * Z))
  : list (string * Z) :=
  match d with
  | [] => [(name, value)]
  | (k, v) :: rest =>
      if String.eqb k name then (k, value) :: rest
      else (k, v) :: store name value rest
  end.

(** [name in d] *)
Definition contains (name : string) (d : list (string * Z)) : bool :=
  match lookup name d with Some _ => true | None => false end.

Record guess_handler := {
  use_latest_reply : bool;
  guesses : list (string * Z)
}.

(** [guess_handler(use_latest_reply)] *)
Definition init (latest : bool) : guess_handler :=
  {| use_latest_reply := latest; guesses := [] |}.

Definition accept_guess (self : guess_handler) (name : string) (value : Z)
  : guess_handler :=
  if use_latest_reply self
  then {| use_latest_reply := use_latest_reply self;
          guesses := store name value (guesses self) |}
  else if negb (contains name (guesses self))
  then {| use_latest_reply := use_latest_reply self;
          guesses := store name value (guesses self) |}
  else self.

Inductive Error := IndexError | ValueError | OverflowError.

(** A number as Python hands it to [get_score]: an exact number (an [int],
    or a [Fraction]), on which arithmetic and comparison are exact, or a
    [float], an IEEE binary64 value. *)
Inductive Number :=
| Exact (q : Q)
| PyFloat (f : spec_float).

(** The [int] [n]. *)
Definition PyInt (n : Z) : Number := Exact (inject_Z n).

(** The rational a finite float stands for. *)
Definition float_value (f : spec_float) : option Q :=
  match f with
  | S754_zero _ => Some 0%Q
  | S754_finite s m e =>
      let n := if s then Z.neg m else Z.pos m in
      Some match e with
           | Z0 => inject_Z n
           | Z.pos p => inject_Z (n * 2 ^ Z.pos p)
           | Z.neg p => n # (2 ^ p)%positive
           end
  | _ => None
  end.

(** The rational a number stands for, if it is finite. *)
Definition exact_value (value : Number) : option Q :=
  match value with
  | Exact q => Some q
  | PyFloat f => float_value f
  end.

(** [value < i] for an [int] [i].  Python compares numbers of different
    kinds by their exact values; minus infinity is below every [int], plus
    infinity and NaN are below none. *)
Definition lt_int (value : Number) (i : Z) : bool :=
  match exact_value value with
  | Some q => Qlt_bool q (inject_Z i)
  | None =>
      match value with
      | PyFloat (S754_infinity negative) => negative
      | _ => false
      end
  end.

(** [float(i)], as [i - value] converts [i] when [value] is a [float]:
    rounded to nearest, ties to even; [OverflowError] when that is beyond
    the largest float. *)
Definition float_of_int (i : Z) : Error + spec_float :=
  match binary_normalize 53 1024 i 0 false with
  | S754_infinity _ => inl OverflowError
  | x => inr x
  end.

(** The loop of the first branch of [get_score] over [raw_values[1:]]:
    [result] is what [result_values] holds, [last_i] the element before
    [i]. *)
Fixpoint scan_not_over (value : Number) (result last_i : Z) (rest : list Z) : Z :=
  match rest with
  | [] => result
  | i :: rest' =>
      if lt_int value i then last_i
      else scan_not_over value result i rest'
  end.

(** [[abs(i - value) for i in raw_values]] for a [float] [value]. *)
Fixpoint float_diffs (raw_values : list Z) (value : spec_float)
  : Error + list spec_float :=
  match raw_values with
  | [] => inr []
  | i :: rest =>
      match float_of_int i with
      | inl e => inl e
      | inr x =>
          match float_diffs rest value with
          | inl e => inl e
          | inr diffs => inr (SFabs (SFsub 53 1024 x value) :: diffs)
          end
      end
  end.

(** [min(diffs)]: the first element, replaced by every later one that is
    less than the least so far; [ValueError] on an empty list. *)
Definition min_of {D} (ltb : D -> D -> bool) (diffs : list D) : Error + D :=
  match diffs with
  | [] => inl ValueError
  | d :: rest => inr (fold_left (fun least x => if ltb x least then x else least) rest d)
  end.

(** The second branch of [get_score] once the differences are there: the
    values whose difference equals the least one. *)
Definition nearest_of {D} (ltb eqb : D -> D -> bool)
    (raw_values : list Z) (diffs : list D) : Error + gset Z :=
  match min_of ltb diffs with
  | inl e => inl e
  | inr min_diff =>
      inr (list_to_set
             (map fst (List.filter (fun p => eqb p.2 min_diff)
                         (combine raw_values diffs))))
  end.

(** The values the score goes to. *)
Definition result_values_of (raw_values : list Z) (value : Number)
    (closest_without_going_over : bool) : Error + gset Z :=
  if closest_without_going_over then
    match raw_values with
    | [] => inl IndexError
    | first :: rest => inr {[ scan_not_over value first first rest ]}
    end
  else
    match value with
    | Exact q =>
        nearest_of Qlt_bool Qeq_bool raw_values
          (map (fun i => Qabs (inject_Z i - q)) raw_values)
    | PyFloat f =>
        match float_diffs raw_values f with
        | inl e => inl e
        | inr diffs => nearest_of SFltb SFeqb raw_values diffs
        end
    end.

Definition get_score (self : guess_handler) (value : Number)
    (closest_without_going_over : bool) : Error + (list string * gset Z) :=
  let raw_values := merge_sort Z.le (map snd (guesses self)) in
  match result_values_of raw_values value closest_without_going_over with
  | inl e => inl e
  | inr result_values =>
      inr (map fst (List.filter (fun kv => bool_decide (kv.2 ∈ result_values))
                      (guesses self)),
           result_values)
  end.

Definition num_replies (self : guess_handler) : nat := length (guesses self).

End GuessHandler.

(** * Part II: vocabulary of the properties, and sample inputs *)

(** The acceptance test of [get_quote]. *)
Definition acceptable (min_length max_length : Z) (s : string) : bool :=
  (min_length <? PyStr.len s) && (PyStr.len s <? max_length).

(** The world after [k] further requests to the prose generator. *)
Definition requested (k : nat) (w : World) : World := Nat.iter k count_statement w.

(** The [k]-th statement the generator hands out from world [w] on. *)
Definition upcoming (w : World) (min_length : Z) (k : nat) : string :=
  statement_of (env w) (statements w + k)%nat min_length.

(** Chat has been silent for longer than the threshold of
    [chat_active_probe]. *)
Definition chat_quiet (w : World) : Prop :=
  (inject_Z (chat_active_probe (config w)).1 < now w - inject_Z (last_message w))%Q.

(** The timer a tick arms: fresh handle [h], due [d] seconds from [t], its
    callback creating the next tick. *)
Definition tick_timer (h : nat) (t : Q) (d : Z) : Timer :=
  {| tid := h; twhen := (t + inject_Z d)%Q; tcallback := TQueueQuote;
     tcancelled := false; tfired := false |}.

(** What a tick of world [w] does: it returns normally, the delay it chose
    lies in [range], it created the tasks [posts] and no other, it armed one
    timer with that delay and remembers its handle, and it sent nothing. *)
Definition tick_outcome (w : World) (range : Z * Z) (posts : list Task) : Prop :=
  exists d w',
    queue_quote w = Ok tt w' /\
    range.1 <= d <= range.2 /\
    ready w' = (ready w ++ posts)%list /\
    timers w' = (timers w ++ [tick_timer (length (timers w)) (now w) d])%list /\
    _timer w' = Some (length (timers w)) /\
    log w' = log w /\
    _stop w' = false.

(** The scheduler half of [stop]: the flag is raised and the remembered
    timer, if any, is cancelled. *)
Definition halted (w : World) : World :=
  match _timer w with
  | Some h => set_timers (map (cancel_timer h) (timers w)) (set_stop true w)
  | None => set_stop true w
  end.

(** The scheduler state a call to [stop] leaves behind does not depend on
    how the farewell went. *)
Definition same_scheduler (a b : World) : Prop :=
  _stop a = _stop b /\ _timer a = _timer b /\ timers a = timers b /\
  ready a = ready b /\ target a = target b /\ last_message a = last_message b.

Definition is_close (e : Event) : bool :=
  match e with EvClose => true | _ => false end.

Definition is_farewell (e : Event) : bool :=
  match e with EvSend text _ => String.eqb text farewell | _ => false end.

(** How often the session was closed, and how often a farewell was put on
    the wire (delivered or not), according to a log. *)
Definition closes (l : list Event) : nat := length (List.filter is_close l).
Definition farewells (l : list Event) : nat := length (List.filter is_farewell l).

(** [if self.target:] *)
Definition connected (w : World) : bool :=
  match target w with Some _ => true | None => false end.

(** Two calls in succession; the caller goes on whatever the first did. *)
Definition stop_twice (w : World) : World := world_of (stop (world_of (stop w))).

(** The closes a call to [stop] adds when [k] sends were made since [w]:
    one, unless a channel is connected and the transport refuses the
    farewell, which is then send number [sends w + k]. *)
Definition closes_added (w : World) (k : nat) : nat :=
  if connected w
  then (if send_succeeds (env w) (sends w + k) then 1 else 0)
  else 1.

(** The two ways [send_quote] dresses a quote, by the outcome [d] of its
    draw from [0..200]. *)
Definition announcement (quote : string) (d : Z) : string :=
  if d =? 0 then "[UwU] " ++ owo_magic quote ++ " [UwU]"
  else "sergeSnerge " ++ quote ++ " sergeSnerge".

Module OwoSpec.

(** The festive mutation as the specification words it: first every
    ["ove"] becomes ["wuw"], then the letters [R], [r], [L], [l] become
    [W], [w], [W], [w]. *)
Fixpoint ove_to_wuw (s : string) : string :=
  match s with
  | EmptyString => EmptyString
  | String a t =>
      match t with
      | String b (String c r) =>
          if Ascii.eqb a "o" && Ascii.eqb b "v" && Ascii.eqb c "e"
          then String "w" (String "u" (String "w" (ove_to_wuw r)))
          else String a (ove_to_wuw t)
      | _ => String a (ove_to_wuw t)
      end
  end.

Definition letter (c : ascii) : ascii :=
  if Ascii.eqb c "R" then "W"%char
  else if Ascii.eqb c "r" then "w"%char
  else if Ascii.eqb c "L" then "W"%char
  else if Ascii.eqb c "l" then "w"%char
  else c.

Fixpoint letters (s : string) : string :=
  match s with
  | EmptyString => EmptyString
  | String c r => String (letter c) (letters r)
  end.

Definition festive (s : string) : string := letters (ove_to_wuw s).

End OwoSpec.

(** Replacing one character by one character is a character-wise map. *)
Fixpoint swap_all (a b : ascii) (s : string) : string :=
  match s with
  | EmptyString => EmptyString
  | String c r => String (if Ascii.eqb a c then b else c) (swap_all a b r)
  end.

(** A message that no command can come of leaves the collaborators alone:
    nothing is sent, no quote is requested, no number is drawn. *)
Definition silent (w w' : World) : Prop :=
  log w' = log w /\ sends w' = sends w /\ statements w' = statements w /\
  draws w' = draws w /\ ready w' = ready w.

(** The part of the world the scheduler invariant speaks about. *)
Definition same_loop (a b : World) : Prop :=
  _stop a = _stop b /\ _timer a = _timer b /\ timers a = timers b /\
  ready a = ready b.

(** The ticks on their way, as queued tasks or as outstanding timers, are no
    more than the dispatches of [event_ready].  When there has been at most
    one dispatch, the scheduler contract of the specification, an
    outstanding timer is the one the bot remembers, and once the flag is
    raised no timer is outstanding. *)
Record Inv (s : Sys) : Prop := {
  inv_count :
    (queued (world s) + length (pending (world s)) <= readies s)%nat;
  inv_handle :
    (readies s <= 1)%nat ->
    forall t, In t (pending (world s)) -> _timer (world s) = Some (tid t);
  inv_stopped :
    (readies s <= 1)%nat ->
    _stop (world s) = true -> pending (world s) = []
}.

(** ** Sample worlds *)

Module Sample.

Definition room : Channel :=
  {| channel_name := "#den";
     get_chatter := fun who =>
       if String.eqb who "Mona" then IsChatter
       else if String.eqb who "vic" then IsChatter
       else if String.eqb who "lurker" then IsPartialChatter
       else NoChatter |}.

(** A transport that resolves the channel at the second attempt and
    delivers the sends [delivered] picks out, by their number. *)
Definition transport (delivered : nat -> bool) : Env :=
  {| statement_of := fun k _ => if (k <? 2)%nat then "Hm." else "Love is all you need";
     draw_of := fun k => Z.of_nat k + 402;
     send_succeeds := delivered;
     channel_of := fun k => if (k <? 1)%nat then None else Some room |}.

(** Every send is delivered. *)
Definition reliable : Env := transport (fun _ => true).

(** The first [n] sends are delivered, the later ones refused. *)
Definition fading (n : nat) : Env := transport (fun k => (k <? n)%nat).

(** A prose generator that only ever says ["Hm."]. *)
Definition terse : Env :=
  {| statement_of := fun _ _ => "Hm.";
     draw_of := draw_of reliable;
     send_succeeds := send_succeeds reliable;
     channel_of := channel_of reliable |}.

Definition settings : Config :=
  {| channel := "den";
     startup_probe := (5, 15);
     chat_active_probe := (300, 900);
     auto_quote_time := (60, 120);
     quote_length := (10, 200) |}.

(** The bot as constructed. *)
Definition fresh (e : Env) : World := init_world e settings "SnergeBot" (5 # 2).

(** After [event_ready]: in the channel, greeting sent, first tick queued. *)
Definition joined (e : Env) : World := world_of (event_ready 3 (fresh e)).

(** After the first tick has run and armed its timer. *)
Definition ticking (e : Env) : World :=
  world_of (queue_quote (set_ready [] (joined e))).

End Sample.

Module Inbox.

Definition from_moderator : Message :=
  {| author := Some {| name := "Mona"; is_mod := true |};
     content := "!Snerge now" |}.

Definition from_viewer : Message :=
  {| author := Some {| name := "vic"; is_mod := false |};
     content := "!snerge" |}.

Definition from_self : Message :=
  {| author := Some {| name := "snergebot"; is_mod := true |};
     content := "!snerge" |}.

End Inbox.

Module Story.

(** The bot joins, ticks once (chat is active: a post is queued, a timer
    armed), the timer fires after a while, and then the process is told
    to stop while the next tick is still in the queue. *)
Definition script : list Action :=
  [Ready 3; RunTask; Elapse 100; Fire 0; Stop].

Definition start : Sys :=
  boot (Sample.reliable) Sample.settings "SnergeBot" (5 # 2).

Definition finish : Sys :=
  match run script start with Some s => s | None => start end.

(** The same up to the moment before the process is told to stop. *)
Definition prelude : list Action :=
  [Ready 3; RunTask; Elapse 100; Fire 0].

Definition midway : Sys :=
  match run prelude start with Some s => s | None => start end.

End Story.

Module Guessing.
Import GuessHandler.

Definition keep_first : guess_handler :=
  accept_guess (accept_guess (accept_guess (accept_guess (init false)
    "ann" 12) "bo" 7) "cy" 30) "bo" 99.

Definition keep_latest : guess_handler :=
  accept_guess (accept_guess (accept_guess (accept_guess (init true)
    "ann" 12) "bo" 7) "cy" 30) "bo" 99.

End Guessing.

Module Numbers.

(** The float nearest to [m * 2 ^ e]. *)
Definition float_of (m e : Z) : spec_float := binary_normalize 53 1024 m e false.

(** [0.5], [20.5], [float("nan")], [float("inf")] *)
Definition half : GuessHandler.Number := GuessHandler.PyFloat (float_of 1 (-1)).
Definition twenty_and_a_half : GuessHandler.Number := GuessHandler.PyFloat (float_of 41 (-1)).
Definition nan : GuessHandler.Number := GuessHandler.PyFloat S754_nan.
Definition inf : GuessHandler.Number := GuessHandler.PyFloat (S754_infinity false).

(** An [int] no float can hold. *)
Definition huge : Z := 10 ^ 400.

End Numbers.

(** ** More vocabulary: replies, winners, branches *)

(** A fresh handler fed a list of replies, oldest first. *)
Definition replay (latest : bool) (replies : list (string * Z))
  : GuessHandler.guess_handler :=
  fold_left (fun h r => GuessHandler.accept_guess h r.1 r.2) replies
    (GuessHandler.init latest).

(** The guess [g] is on record, under some name. *)
Definition on_record (self : GuessHandler.guess_handler) (g : Z) : Prop :=
  exists name, In (name, g) (GuessHandler.guesses self).

(** The names a score goes to when the values are [values]: in the order of
    the dict. *)
Definition winners (self : GuessHandler.guess_handler) (values : gset Z)
  : list string :=
  map fst (List.filter (fun kv => bool_decide (kv.2 ∈ values))
             (GuessHandler.guesses self)).

(** [abs(i - value)] for a [float] [value] and an [int] [i] that a float
    holds. *)
Definition float_diff (value : spec_float) (i : Z) : spec_float :=
  SFabs (SFsub 53 1024 (binary_normalize 53 1024 i 0 false) value).

(** No float holds the [int] [i]: [float(i)] raises. *)
Definition beyond_float (i : Z) : Prop :=
  GuessHandler.float_of_int i = inl GuessHandler.OverflowError.

(** The nearest guess to a [float] is asked for while the record holds a
    guess that no float holds. *)
Definition float_overflow (self : GuessHandler.guess_handler)
    (value : GuessHandler.Number) (closest_without_going_over : bool) : Prop :=
  closest_without_going_over = false /\
  (exists f, value = GuessHandler.PyFloat f) /\
  exists g, on_record self g /\ beyond_float g.

(** The nearest guess to NaN is asked for. *)
Definition nearest_to_nan (value : GuessHandler.Number)
    (closest_without_going_over : bool) : Prop :=
  closest_without_going_over = false /\ value = GuessHandler.PyFloat S754_nan.

Module Polls.

(** Six replies from four people; [bo] and [ann] answer twice. *)
Definition replies : list (string * Z) :=
  [("ann", 12); ("bo", 7); ("cy", 30); ("bo", 99); ("dee", 30); ("ann", 5)].

(** The same with one more reply, a number with 401 digits. *)
Definition with_a_huge_reply : list (string * Z) :=
  (replies ++ [("zed", Numbers.huge)])%list.

End Polls.

(** The branch a tick takes, read off the world: the range it draws its
    delay from and the tasks it creates. *)
Definition tick_branch (w : World) : (Z * Z) * list Task :=
  match target w with
  | None => (startup_probe (config w), [])
  | Some _ =>
      if Qlt_bool (inject_Z (chat_active_probe (config w)).1)
                  (now w - inject_Z (last_message w))
      then (chat_active_probe (config w), [])
      else (auto_quote_time (config w), [TSendQuote])
  end.

(** What no handler of the bot ever writes: the configuration, the clock,
    the nick and the collaborators. *)
Definition same_setting (a b : World) : Prop :=
  config a = config b /\ now a = now b /\ nick a = nick b /\ env a = env b.

(** What happens in the ordinary life of the bot: everything but a further
    [event_ready] and the order to stop. *)
Definition routine (a : Action) : bool :=
  match a with
  | Ready _ | Stop => false
  | _ => true
  end.

(** The scheduler is running: the flag is down, exactly one tick is on its
    way, as a queued task or as an outstanding timer whose callback is the
    tick, and the configuration is well formed. *)
Definition ticking_on (s : Sys) : Prop :=
  _stop (world s) = false /\
  (queued (world s) + length (pending (world s)) = 1)%nat /\
  (forall t, In t (pending (world s)) -> tcallback t = TQueueQuote) /\
  config_ok (config (world s)).

(** Every timer of handle [h] has been cancelled, and the flag is raised. *)
Definition silenced (h : nat) (s : Sys) : Prop :=
  _stop (world s) = true /\
  forall t, In t (timers (world s)) -> tid t = h -> tcancelled t = true.

Module Misconfigured.

(** Settings whose posting interval has its bounds the wrong way round. *)
Definition settings : Config :=
  {| channel := "den";
     startup_probe := (5, 15);
     chat_active_probe := (300, 900);
     auto_quote_time := (120, 60);
     quote_length := (10, 200) |}.

(** The bot in its channel under these settings. *)
Definition joined : World :=
  world_of (event_ready 3 (init_world Sample.reliable settings "SnergeBot" (5 # 2))).

End Misconfigured.

Module Day.

(** An ordinary stretch of the bot's life: the first tick runs and posts,
    a viewer talks, time passes, the timer fires, the next tick runs. *)
Definition script : list Action :=
  [RunTask; RunTask; Incoming Inbox.from_viewer; Elapse 100; Fire 0; RunTask].

Definition morning : Sys :=
  {| world := Sample.joined Sample.reliable; readies := 1 |}.

Definition evening : Sys :=
  match run script morning with Some s => s | None => morning end.

(** The bot is stopped while its first timer is outstanding; later the
    clock passes the time the timer was due and the queued post runs. *)
Definition after_stop : list Action := [Elapse 200; RunTask].

Definition stopped : Sys :=
  {| world := world_of (stop (Sample.ticking Sample.reliable)); readies := 1 |}.

Definition night : Sys :=
  match run after_stop stopped with Some s => s | None => stopped end.

End Day.

(** The checks [event_message] makes before it posts, in its order: author
    present, not the bot itself, a channel connected, the author a full
    chatter of it and a moderator, the lowercased content the command. *)
Definition authorised (w : World) (m : Message) : bool :=
  match author m, target w with
  | Some a, Some ch =>
      negb (String.eqb (PyStr.lower (name a)) (PyStr.lower (nick w)))
      && match get_chatter ch (name a) with IsChatter => true | _ => false end
      && is_mod a
      && is_snerge_command (PyStr.lower (content m))
  | _, _ => false
  end.

Module Outbox.

(** A moderator by flag whom the channel only knows as a partial chatter. *)
Definition from_lurker : Message :=
  {| author := Some {| name := "lurker"; is_mod := true |};
     content := "!snerge" |}.

(** A moderator saying something that merely begins like the command. *)
Definition near_miss : Message :=
  {| author := Some {| name := "Mona"; is_mod := true |};
     content := "!snergefoo" |}.

End Outbox.

(** * Part III: properties *)

(** ** The string primitives on examples *)

Example replace_overlap : PyStr.replace "aa" "b" "aaaaa" = "bba".
Proof. reflexivity. Qed.

Example replace_empty_pattern : PyStr.replace "" "-" "ab" = "-a-b-".
Proof. reflexivity. Qed.

Example lower_mixed : PyStr.lower "!SnErGe Foo" = "!snerge foo".
Proof. reflexivity. Qed.

(** ** The quote generator *)

Lemma requested_S k w : requested k (count_statement w) = requested (S k) w.
Proof.
  unfold requested. induction k as [|k IH]; [reflexivity|].
  simpl in *. now rewrite IH.
Qed.

Lemma statements_requested k w : statements (requested k w) = (statements w + k)%nat.
Proof.
  unfold requested. induction k as [|k IH]; simpl; [lia|]. rewrite IH. lia.
Qed.

Lemma log_requested k w : log (requested k w) = log w.
Proof. unfold requested. induction k as [|k IH]; simpl; auto. Qed.

Lemma acceptable_bounds lo hi s :
  acceptable lo hi s = true <-> lo < PyStr.len s < hi.
Proof. unfold acceptable. rewrite andb_true_iff, !Z.ltb_lt. tauto. Qed.

Lemma get_quote_loop_spec n lo hi : forall w,
  (exists k, (k < n)%nat /\
     (forall j, (j < k)%nat -> acceptable lo hi (upcoming w lo j) = false) /\
     acceptable lo hi (upcoming w lo k) = true /\
     get_quote_loop n lo hi w = Ok (upcoming w lo k) (requested (S k) w))
  \/
  ((forall j, (j < n)%nat -> acceptable lo hi (upcoming w lo j) = false) /\
   get_quote_loop n lo hi w = Ok fallback_quote (requested n w)).
Proof.
  induction n as [|n IH]; intros w.
  - right. split; [intros j Hj; lia | reflexivity].
  - assert (Hstep : forall j, upcoming (count_statement w) lo j = upcoming w lo (S j)).
    { intros j. unfold upcoming. simpl. f_equal. lia. }
    assert (Hhead : get_quote_loop (S n) lo hi w =
              if acceptable lo hi (upcoming w lo 0)
              then Ok (upcoming w lo 0) (count_statement w)
              else get_quote_loop n lo hi (count_statement w)).
    { unfold upcoming, acceptable. rewrite Nat.add_0_r.
      cbn [get_quote_loop]. unfold mbind, M_bind, make_statement.
      now destruct (_ && _). }
    destruct (acceptable lo hi (upcoming w lo 0)) eqn:Hacc.
    + left. exists 0%nat. repeat split; [lia | intros j Hj; lia | assumption | exact Hhead].
    + destruct (IH (count_statement w)) as [(k & Hk & Hrej & Hok & Hrun) | [Hrej Hrun]].
      * left. exists (S k). repeat split.
        -- lia.
        -- intros [|j] Hj; [assumption|]. rewrite <- Hstep. apply Hrej. lia.
        -- now rewrite <- Hstep.
        -- rewrite Hhead, Hrun, Hstep, requested_S. reflexivity.
      * right. split.
        -- intros [|j] Hj; [assumption|]. rewrite <- Hstep. apply Hrej. lia.
        -- rewrite Hhead, Hrun, requested_S. reflexivity.
Qed.

Lemma get_quote_returns_requested lo hi w :
  exists q k, get_quote lo hi w = Ok q (requested k w).
Proof.
  unfold get_quote.
  destruct (get_quote_loop_spec 100 lo hi w) as [(k & _ & _ & _ & H) | [_ H]]; eauto.
Qed.

(** C1. [get_quote] never raises and always returns: for every bounds and
    every prose generator it either returns the first of the next 100
    statements whose length is strictly between the bounds, having asked for
    exactly the statements up to that one, or all 100 statements fail the
    bound, the generator has been asked exactly 100 times, and the result is
    the fallback quote ["I don't like coffee."]. *)
Theorem get_quote_bounded_retry (min_length max_length : Z) (w : World) :
  exists q w', get_quote min_length max_length w = Ok q w' /\
    ((exists k, (k < 100)%nat /\
        (forall j, (j < k)%nat ->
           ~ (min_length < PyStr.len (upcoming w min_length j) < max_length)) /\
        q = upcoming w min_length k /\
        min_length < PyStr.len q < max_length /\
        w' = requested (S k) w /\
        statements w' = (statements w + S k)%nat)
     \/
     ((forall j, (j < 100)%nat ->
         ~ (min_length < PyStr.len (upcoming w min_length j) < max_length)) /\
      q = "I don't like coffee." /\
      w' = requested 100 w /\
      statements w' = (statements w + 100)%nat)).
Proof.
  unfold get_quote.
  destruct (get_quote_loop_spec 100 min_length max_length w)
    as [(k & Hk & Hrej & Hok & Hrun) | [Hrej Hrun]].
  - exists (upcoming w min_length k), (requested (S k) w). split; [exact Hrun|].
    left. exists k. repeat split; try lia.
    + intros j Hj Hb. apply acceptable_bounds in Hb. rewrite (Hrej j Hj) in Hb. discriminate.
    + apply acceptable_bounds in Hok. lia.
    + apply acceptable_bounds in Hok. lia.
    + apply statements_requested.
  - exists fallback_quote, (requested 100 w). split; [exact Hrun|].
    right. repeat split.
    + intros j Hj Hb. apply acceptable_bounds in Hb. rewrite (Hrej j Hj) in Hb. discriminate.
    + apply statements_requested.
Qed.

Example third_statement_accepted :
  get_quote 10 200 (Sample.fresh Sample.reliable) =
  Ok "Love is all you need" (requested 3 (Sample.fresh Sample.reliable)).
Proof. vm_compute. reflexivity. Qed.

Example hundred_statements_rejected :
  get_quote 10 200 (Sample.fresh Sample.terse) =
  Ok "I don't like coffee." (requested 100 (Sample.fresh Sample.terse)).
Proof. vm_compute. reflexivity. Qed.

(** ** The scheduler tick *)

Lemma Qlt_bool_iff (a b : Q) : Qlt_bool a b = true <-> (a < b)%Q.
Proof. unfold Qlt_bool, Qlt. apply Z.ltb_lt. Qed.

Lemma randint_in_range a b w :
  a <= b ->
  exists d, a <= d <= b /\ randint a b w = Ok d (count_draw w).
Proof.
  intros Hab. unfold randint.
  destruct (Z.ltb_spec b a) as [Hlt|_]; [lia|].
  eexists. split; [|reflexivity].
  pose proof (Z.mod_pos_bound (draw_of (env w) (draws w)) (b - a + 1)). lia.
Qed.

(** C2. A tick that runs while not stopped, under a configuration whose
    ranges are well formed: with no channel connected the delay is drawn
    from [startup_probe] and no post is triggered; with a channel and chat
    silent for strictly longer than the threshold of [chat_active_probe] the
    delay is drawn from [chat_active_probe] and no post is triggered;
    otherwise exactly one post is triggered and the delay is drawn from
    [auto_quote_time]; in each case exactly one future tick is armed. *)
Theorem queue_quote_classification (w : World) :
  _stop w = false ->
  config_ok (config w) ->
  (target w = None -> tick_outcome w (startup_probe (config w)) []) /\
  (target w <> None -> chat_quiet w ->
     tick_outcome w (chat_active_probe (config w)) []) /\
  (target w <> None -> ~ chat_quiet w ->
     tick_outcome w (auto_quote_time (config w)) [TSendQuote]).
Proof.
  intros Hrun [[_ Hsp] [_ Hcp] [_ Haq] _].
  unfold tick_outcome, chat_quiet, queue_quote, mbind, M_bind, get. rewrite Hrun.
  repeat split.
  - intros ->.
    destruct (randint_in_range _ _ w Hsp) as (d & Hd & ->).
    exists d. eexists. split; [reflexivity|]. cbn. rewrite app_nil_r. repeat split; auto; lia.
  - intros Hconn Hquiet. destruct (target w); [|congruence].
    apply Qlt_bool_iff in Hquiet. unfold loop_time. rewrite Hquiet.
    destruct (randint_in_range _ _ w Hcp) as (d & Hd & ->).
    exists d. eexists. split; [reflexivity|]. cbn. rewrite app_nil_r. repeat split; auto; lia.
  - intros Hconn Hactive. destruct (target w); [|congruence].
    rewrite <- Qlt_bool_iff in Hactive. apply not_true_is_false in Hactive.
    unfold loop_time. rewrite Hactive. unfold create_task, modify.
    destruct (randint_in_range _ _ (set_ready (ready w ++ [TSendQuote]) w) Haq)
      as (d & Hd & ->).
    exists d. eexists. split; [reflexivity|]. cbn. repeat split; auto; lia.
Qed.

(** C2, at a running bot whose channel is connected and whose chat is
    active. *)
Lemma queue_quote_classification_witness :
  let w := Sample.joined Sample.reliable in
  (target w = None -> tick_outcome w (startup_probe (config w)) []) /\
  (target w <> None -> chat_quiet w ->
     tick_outcome w (chat_active_probe (config w)) []) /\
  (target w <> None -> ~ chat_quiet w ->
     tick_outcome w (auto_quote_time (config w)) [TSendQuote]).
Proof.
  apply (queue_quote_classification (Sample.joined Sample.reliable)).
  - reflexivity.
  - change (config_ok Sample.settings). split; unfold range_ok; cbn; lia.
Defined.

Example tick_while_disconnected :
  exists w', queue_quote (Sample.fresh Sample.reliable) = Ok tt w' /\
    ready w' = [] /\ timers w' = [tick_timer 0 (5 # 2) 11] /\ _timer w' = Some 0%nat.
Proof. eexists. split; [vm_compute; reflexivity|]. cbn. auto. Qed.

Example tick_while_chat_active :
  exists w', queue_quote (Sample.joined Sample.reliable) = Ok tt w' /\
    ready w' = [TQueueQuote; TSendQuote] /\ timers w' = [tick_timer 0 (5 # 2) 96].
Proof. eexists. split; [vm_compute; reflexivity|]. cbn. auto. Qed.

Example tick_while_chat_quiet :
  exists w', queue_quote (set_now (3001 # 10) (Sample.joined Sample.reliable)) = Ok tt w' /\
    ready w' = [TQueueQuote] /\ timers w' = [tick_timer 0 (3001 # 10) 702].
Proof. eexists. split; [vm_compute; reflexivity|]. cbn. auto. Qed.

(** ** Shutdown *)

Lemma stop_eq (w : World) :
  stop w =
  match target w with
  | None => Ok tt (record_close (halted w))
  | Some _ =>
      if send_succeeds (env w) (sends w)
      then Ok tt (record_close (record_send farewell true (halted w)))
      else Raise SendFailure (record_send farewell false (halted w))
  end.
Proof.
  unfold stop, halted, mbind, M_bind, modify, get, cancel, send, close, mret, M_ret.
  cbn. destruct (_timer w), (target w); cbn; try reflexivity;
    destruct (send_succeeds (env w) (sends w)); reflexivity.
Qed.

Lemma cancel_timer_idem h t : cancel_timer h (cancel_timer h t) = cancel_timer h t.
Proof.
  unfold cancel_timer. destruct (tid t =? h)%nat eqn:E; cbn; rewrite E; reflexivity.
Qed.

Lemma target_halted w : target (halted w) = target w.
Proof. unfold halted. now destruct (_timer w). Qed.

Lemma _timer_halted w : _timer (halted w) = _timer w.
Proof. unfold halted. destruct (_timer w) eqn:E; cbn; congruence. Qed.

Lemma _stop_halted w : _stop (halted w) = true.
Proof. unfold halted. now destruct (_timer w). Qed.

Lemma log_halted w : log (halted w) = log w.
Proof. unfold halted. now destruct (_timer w). Qed.

Lemma timers_halted w :
  timers (halted w) =
  match _timer w with Some h => map (cancel_timer h) (timers w) | None => timers w end.
Proof. unfold halted. now destruct (_timer w). Qed.

Lemma ready_halted w : ready (halted w) = ready w.
Proof. unfold halted. now destruct (_timer w). Qed.

Lemma stop_scheduler w : same_scheduler (world_of (stop w)) (halted w).
Proof.
  rewrite stop_eq. unfold same_scheduler.
  destruct (target w); [destruct (send_succeeds _ _)|]; cbn; auto 10.
Qed.

Lemma halted_idem w : same_scheduler (halted (halted w)) (halted w).
Proof.
  unfold same_scheduler, halted.
  destruct (_timer w) as [h|] eqn:E; cbn; rewrite ?E; cbn; repeat split; auto.
  rewrite map_map. apply map_ext. intros t. apply cancel_timer_idem.
Qed.

Lemma same_scheduler_sym a b : same_scheduler a b -> same_scheduler b a.
Proof. unfold same_scheduler. intuition congruence. Qed.

Lemma same_scheduler_trans a b c :
  same_scheduler a b -> same_scheduler b c -> same_scheduler a c.
Proof. unfold same_scheduler. intuition congruence. Qed.

Lemma halted_proper a b : same_scheduler a b -> same_scheduler (halted a) (halted b).
Proof.
  intros (Hs & Ht & Hts & Hr & Hg & Hl). unfold same_scheduler, halted.
  rewrite Ht. destruct (_timer b) eqn:E; cbn; rewrite ?Hts; repeat split; congruence.
Qed.

(** C3, as the code has it: [stop] closes the session when no channel is
    connected or the farewell is delivered; when the farewell send raises,
    the exception leaves [stop] and the session is not closed. *)
Theorem stop_closes_unless_farewell_fails (w : World) :
  match target w with
  | None =>
      exists w', stop w = Ok tt w' /\ log w' = (log w ++ [EvClose])%list
  | Some _ =>
      if send_succeeds (env w) (sends w)
      then exists w', stop w = Ok tt w' /\
             log w' = (log w ++ [EvSend farewell true; EvClose])%list
      else exists w', stop w = Raise SendFailure w' /\
             log w' = (log w ++ [EvSend farewell false])%list /\
             closes (log w') = closes (log w)
  end.
Proof.
  rewrite stop_eq.
  destruct (target w); [destruct (send_succeeds (env w) (sends w))|];
    eexists; (split; [reflexivity|]); cbn; rewrite log_halted.
  - now rewrite <- app_assoc.
  - split; [reflexivity|]. unfold closes. rewrite List.filter_app, length_app. cbn. lia.
  - reflexivity.
Qed.

(** C3 as stated fails: with a channel connected and a transport that
    refuses the farewell, [stop] ends by the exception of the send, and no
    close is ever performed. *)
Lemma stop_close_skipped :
  let w := Sample.ticking (Sample.fading 1) in
  target w <> None /\
  (exists w', stop w = Raise SendFailure w' /\
     log w' = [EvJoin "den"; EvJoin "den";
               EvSend "Never fear, Snerge is here!" true;
               EvSend "sergeSnerge Sleepy time!" false]) /\
  closes (log (world_of (stop w))) = 0%nat.
Proof.
  split; [vm_compute; discriminate|].
  split; [eexists; split|]; vm_compute; reflexivity.
Qed.

Lemma env_halted w : env (halted w) = env w.
Proof. unfold halted. now destruct (_timer w). Qed.

Lemma sends_halted w : sends (halted w) = sends w.
Proof. unfold halted. now destruct (_timer w). Qed.

(** What one call to [stop] leaves on the wire and of the transport. *)
Lemma stop_wire (v : World) :
  farewells (log (world_of (stop v))) =
    (farewells (log v) + if connected v then 1 else 0)%nat /\
  closes (log (world_of (stop v))) = (closes (log v) + closes_added v 0)%nat /\
  connected (world_of (stop v)) = connected v /\
  env (world_of (stop v)) = env v /\
  sends (world_of (stop v)) = (sends v + if connected v then 1 else 0)%nat.
Proof.
  rewrite stop_eq. unfold farewells, closes, closes_added, connected.
  rewrite Nat.add_0_r.
  destruct (target v) eqn:Et; [destruct (send_succeeds (env v) (sends v))|]; cbn;
    rewrite ?log_halted, ?List.filter_app, ?length_app, ?target_halted, ?Et,
      ?env_halted, ?sends_halted; cbn; repeat split; lia.
Qed.

(** C4, as the code has it: a second [stop] leaves the scheduler state (flag,
    remembered handle, timers, queue, channel) as the first left it, but
    every call puts a farewell on the wire exactly when a channel is
    connected, so two calls put two farewells, or none.  Every call closes
    the session unless its own farewell is refused: two calls close twice
    when no channel is connected, and once for each of the two farewells
    that is delivered when one is. *)
Theorem stop_twice_repeats_farewell (w : World) :
  same_scheduler (stop_twice w) (world_of (stop w)) /\
  _stop (stop_twice w) = true /\
  farewells (log (world_of (stop w))) =
    (farewells (log w) + if connected w then 1 else 0)%nat /\
  farewells (log (stop_twice w)) =
    (farewells (log w) + if connected w then 2 else 0)%nat /\
  closes (log (world_of (stop w))) = (closes (log w) + closes_added w 0)%nat /\
  closes (log (stop_twice w)) =
    (closes (log w) + closes_added w 0 + closes_added w 1)%nat.
Proof.
  destruct (stop_wire w) as (Hf & Hc & Hconn & Henv & Hsends).
  destruct (stop_wire (world_of (stop w))) as (Hf' & Hc' & _).
  unfold stop_twice. split; [|split; [|split; [|split; [|split]]]].
  - eapply same_scheduler_trans; [apply stop_scheduler|].
    eapply same_scheduler_trans; [apply halted_proper, stop_scheduler|].
    eapply same_scheduler_trans; [apply halted_idem|].
    apply same_scheduler_sym, stop_scheduler.
  - destruct (stop_scheduler (world_of (stop w))) as (-> & _). apply _stop_halted.
  - exact Hf.
  - rewrite Hf', Hf, Hconn. destruct (connected w); lia.
  - exact Hc.
  - rewrite Hc', Hc. f_equal.
    unfold closes_added. rewrite Hconn, Henv, Hsends.
    destruct (connected w); [|reflexivity].
    now rewrite Nat.add_0_r.
Qed.

Example stop_twice_closes :
  closes (log (stop_twice (Sample.ticking Sample.reliable))) = 2%nat /\
  closes (log (stop_twice (Sample.ticking (Sample.fading 2)))) = 1%nat /\
  closes (log (stop_twice (Sample.ticking (Sample.fading 1)))) = 0%nat /\
  closes (log (stop_twice (Sample.fresh Sample.reliable))) = 2%nat.
Proof. repeat split; vm_compute; reflexivity. Qed.

(** C4 as stated fails: stopping twice a bot that is in its channel puts two
    farewells on the wire, not one, and closes the session twice; and on a
    transport that refuses sends once closed, the second call still attempts
    the farewell and ends by the exception of that send. *)
Lemma stop_twice_two_farewells :
  (let w := Sample.ticking Sample.reliable in
   target w <> None /\
   log (stop_twice w) =
     (log w ++ [EvSend "sergeSnerge Sleepy time!" true; EvClose;
                EvSend "sergeSnerge Sleepy time!" true; EvClose])%list /\
   farewells (log (stop_twice w)) = 2%nat /\
   stop_twice w <> world_of (stop w)) /\
  (let w := Sample.ticking (Sample.fading 2) in
   (exists w1, stop w = Ok tt w1 /\
      exists w2, stop w1 = Raise SendFailure w2 /\
        log w2 = (log w ++ [EvSend "sergeSnerge Sleepy time!" true; EvClose;
                            EvSend "sergeSnerge Sleepy time!" false])%list) /\
   farewells (log (stop_twice w)) = 2%nat).
Proof.
  split.
  - repeat split; vm_compute; congruence.
  - split; [|vm_compute; reflexivity].
    eexists. split; [vm_compute; reflexivity|].
    eexists. split; vm_compute; reflexivity.
Qed.

(** ** Posting a quote *)

(** With a channel connected, a post asks the generator for a quote, draws
    once from [0..200], and puts exactly one announcement on the wire. *)
Lemma send_quote_connected w ch :
  target w = Some ch ->
  exists q k d,
    get_quote (quote_length (config w)).1 (quote_length (config w)).2 w
      = Ok q (requested k w) /\
    randint 0 200 (requested k w) = Ok d (count_draw (requested k w)) /\
    0 <= d <= 200 /\
    send_quote w = send (announcement q d) (count_draw (requested k w)).
Proof.
  intros Hch.
  destruct (get_quote_returns_requested (quote_length (config w)).1 (quote_length (config w)).2 w)
    as (q & k & Hq).
  destruct (randint_in_range 0 200 (requested k w)) as (d & Hd & Hr); [lia|].
  exists q, k, d. repeat split; try assumption; try lia.
  unfold send_quote, mbind, M_bind, get. rewrite Hch, Hq, Hr.
  unfold announcement. now destruct (d =? 0).
Qed.

Lemma requested_frame k w :
  same_scheduler (requested k w) w /\ log (requested k w) = log w /\
  sends (requested k w) = sends w /\ env (requested k w) = env w /\
  now (requested k w) = now w.
Proof.
  unfold requested, same_scheduler.
  induction k as [|k IH]; cbn; [auto 12|]. exact IH.
Qed.

Lemma send_world text w :
  world_of (send text w) = record_send text (send_succeeds (env w) (sends w)) w.
Proof. unfold send. now destruct (send_succeeds (env w) (sends w)). Qed.

(** What a post leaves in the log: nothing without a channel, one
    announcement with one. *)
Lemma send_quote_log w :
  match target w with
  | None => send_quote w = Ok tt w
  | Some _ =>
      exists q d, 0 <= d <= 200 /\
        log (world_of (send_quote w)) =
          (log w ++ [EvSend (announcement q d) (send_succeeds (env w) (sends w))])%list /\
        sends (world_of (send_quote w)) = S (sends w)
  end.
Proof.
  destruct (target w) as [ch|] eqn:Hch.
  - destruct (send_quote_connected w ch Hch) as (q & k & d & _ & _ & Hd & ->).
    destruct (requested_frame k w) as (_ & Hlog & Hsends & Henv & _).
    exists q, d. split; [exact Hd|].
    rewrite send_world.
    change (log (requested k w) ++
              [EvSend (announcement q d)
                 (send_succeeds (env (requested k w)) (sends (requested k w)))]
            = log w ++ [EvSend (announcement q d) (send_succeeds (env w) (sends w))]
            /\ S (sends (requested k w)) = S (sends w))%list.
    now rewrite Hlog, Hsends, Henv.
  - unfold send_quote, mbind, M_bind, get. now rewrite Hch.
Qed.

Lemma send_quote_scheduler w : same_scheduler (world_of (send_quote w)) w.
Proof.
  destruct (target w) as [ch|] eqn:Hch.
  - destruct (send_quote_connected w ch Hch) as (q & k & d & _ & _ & _ & ->).
    destruct (requested_frame k w) as (Hs & _).
    rewrite send_world. exact Hs.
  - pose proof (send_quote_log w) as H. rewrite Hch in H. rewrite H.
    unfold same_scheduler. auto 10.
Qed.

(** ** The cosmetic transform *)

Section OwoRefinement.

Import OwoSpec.

Lemma replace_one_char a b s :
  PyStr.replace (String a EmptyString) (String b EmptyString) s = swap_all a b s.
Proof.
  unfold PyStr.replace. induction s as [|c r IH]; [reflexivity|].
  cbn. destruct (Ascii.eqb a c); cbn; now rewrite IH.
Qed.

Lemma swap_four_letters s :
  swap_all "l" "w" (swap_all "L" "W" (swap_all "r" "w" (swap_all "R" "W" s)))
  = letters s.
Proof.
  induction s as [|c r IH]; [reflexivity|].
  cbn [swap_all letters]. rewrite IH. f_equal.
  unfold letter. rewrite (Ascii.eqb_sym c "R"), (Ascii.eqb_sym c "r"),
    (Ascii.eqb_sym c "L"), (Ascii.eqb_sym c "l").
  destruct (Ascii.eqb_spec "R" c) as [<-|]; [reflexivity|].
  destruct (Ascii.eqb_spec "r" c) as [<-|]; [reflexivity|].
  destruct (Ascii.eqb_spec "L" c) as [<-|]; [reflexivity|].
  reflexivity.
Qed.

Lemma replace_scan_here old new c r :
  PyStr.replace_scan old new 0 (String c r) =
  if PyStr.startswith old (String c r)
  then new ++ PyStr.replace_scan old new (String.length old - 1) r
  else String c (PyStr.replace_scan old new 0 r).
Proof. reflexivity. Qed.

Lemma replace_scan_skip old new k c r :
  PyStr.replace_scan old new (S k) (String c r) = PyStr.replace_scan old new k r.
Proof. reflexivity. Qed.

Lemma startswith_cons a p b s :
  PyStr.startswith (String a p) (String b s) =
  if Ascii.eqb a b then PyStr.startswith p s else false.
Proof. reflexivity. Qed.

Lemma ove_to_wuw_three a b c r :
  ove_to_wuw (String a (String b (String c r))) =
  if Ascii.eqb a "o" && Ascii.eqb b "v" && Ascii.eqb c "e"
  then String "w" (String "u" (String "w" (ove_to_wuw r)))
  else String a (ove_to_wuw (String b (String c r))).
Proof. reflexivity. Qed.

Lemma replace_scan_ove_bounded n : forall s,
  (String.length s <= n)%nat ->
  PyStr.replace_scan "ove" "wuw" 0 s = ove_to_wuw s.
Proof.
  induction n as [|n IH]; intros s Hn.
  - destruct s; [reflexivity | cbn in Hn; lia].
  - destruct s as [|a t]; [reflexivity|].
    cbn [String.length] in Hn.
    assert (Ht : PyStr.replace_scan "ove" "wuw" 0 t = ove_to_wuw t)
      by (apply IH; lia).
    rewrite replace_scan_here.
    destruct t as [|b [|c r]].
    + rewrite startswith_cons. destruct (Ascii.eqb "o" a); reflexivity.
    + rewrite !startswith_cons, Ht.
      destruct (Ascii.eqb "o" a); [destruct (Ascii.eqb "v" b)|]; reflexivity.
    + assert (Hr : PyStr.replace_scan "ove" "wuw" 0 r = ove_to_wuw r)
        by (apply IH; cbn [String.length] in Hn; lia).
      rewrite !startswith_cons, ove_to_wuw_three.
      change (String.length "ove" - 1)%nat with 2%nat.
      rewrite !replace_scan_skip, Ht, Hr.
      rewrite (Ascii.eqb_sym a "o"), (Ascii.eqb_sym b "v"), (Ascii.eqb_sym c "e").
      destruct (Ascii.eqb "o" a); [destruct (Ascii.eqb "v" b);
        [destruct (Ascii.eqb "e" c)|]|]; reflexivity.
Qed.

Lemma replace_ove s : PyStr.replace "ove" "wuw" s = ove_to_wuw s.
Proof. apply (replace_scan_ove_bounded (String.length s)). lia. Qed.

(** [owo_magic] computes the mutation the specification describes. *)
Lemma owo_magic_refines s : owo_magic s = festive s.
Proof.
  unfold owo_magic, festive.
  rewrite !replace_one_char, replace_ove. apply swap_four_letters.
Qed.

End OwoRefinement.

(** C6. With a channel connected a post draws [d] from [0..200], of whose 201
    values exactly one, [0], selects the festive path.  On that path the
    text sent is the quote with first every ["ove"] replaced by ["wuw"] and
    then [R], [r], [L], [l] replaced by [W], [w], [W], [w], wrapped in the
    marker ["[UwU]"] on both sides; otherwise it is the quote unchanged
    between two ["sergeSnerge"].  The festive mutation of ["Love"] is
    ["Wwuw"]. *)
Theorem festive_decoration (w : World) (ch : Channel) :
  target w = Some ch ->
  (exists q k d,
     get_quote (quote_length (config w)).1 (quote_length (config w)).2 w
       = Ok q (requested k w) /\
     randint 0 200 (requested k w) = Ok d (count_draw (requested k w)) /\
     0 <= d <= 200 /\
     log (world_of (send_quote w)) =
       (log w ++
        [EvSend (if d =? 0
                 then "[UwU] " ++ OwoSpec.letters (OwoSpec.ove_to_wuw q) ++ " [UwU]"
                 else "sergeSnerge " ++ q ++ " sergeSnerge")
                (send_succeeds (env w) (sends w))])%list) /\
  length (List.filter (Z.eqb 0) (seqZ 0 201)) = 1%nat /\
  (forall s,
     owo_magic s =
     PyStr.replace "l" "w" (PyStr.replace "L" "W" (PyStr.replace "r" "w"
       (PyStr.replace "R" "W" (PyStr.replace "ove" "wuw" s))))) /\
  PyStr.replace "ove" "wuw" "Love" = "Lwuw" /\
  owo_magic "Love" = "Wwuw".
Proof.
  intros Hch. split; [|repeat split; vm_compute; reflexivity].
  destruct (send_quote_connected w ch Hch) as (q & k & d & Hq & Hr & Hd & Hs).
  exists q, k, d. repeat split; try assumption; try lia.
  destruct (requested_frame k w) as (_ & Hlog & Hsends & Henv & _).
  rewrite Hs, send_world.
  change (log (requested k w) ++
            [EvSend (announcement q d)
               (send_succeeds (env (requested k w)) (sends (requested k w)))]
          = log w ++
            [EvSend (if d =? 0
                     then "[UwU] " ++ OwoSpec.letters (OwoSpec.ove_to_wuw q) ++ " [UwU]"
                     else "sergeSnerge " ++ q ++ " sergeSnerge")
                    (send_succeeds (env w) (sends w))])%list.
  rewrite Hlog, Hsends, Henv. unfold announcement.
  now rewrite owo_magic_refines.
Qed.

Lemma festive_decoration_witness :
  let w := Sample.joined Sample.reliable in
  (exists q k d,
     get_quote (quote_length (config w)).1 (quote_length (config w)).2 w
       = Ok q (requested k w) /\
     randint 0 200 (requested k w) = Ok d (count_draw (requested k w)) /\
     0 <= d <= 200 /\
     log (world_of (send_quote w)) =
       (log w ++
        [EvSend (if d =? 0
                 then "[UwU] " ++ OwoSpec.letters (OwoSpec.ove_to_wuw q) ++ " [UwU]"
                 else "sergeSnerge " ++ q ++ " sergeSnerge")
                (send_succeeds (env w) (sends w))])%list) /\
  length (List.filter (Z.eqb 0) (seqZ 0 201)) = 1%nat /\
  (forall s,
     owo_magic s =
     PyStr.replace "l" "w" (PyStr.replace "L" "W" (PyStr.replace "r" "w"
       (PyStr.replace "R" "W" (PyStr.replace "ove" "wuw" s))))) /\
  PyStr.replace "ove" "wuw" "Love" = "Lwuw" /\
  owo_magic "Love" = "Wwuw".
Proof. apply (festive_decoration (Sample.joined Sample.reliable) Sample.room). reflexivity. Defined.

Example festive_post :
  log (world_of (send_quote (Sample.joined Sample.reliable))) =
  (log (Sample.joined Sample.reliable) ++
   [EvSend "[UwU] Wwuw is aww you need [UwU]" true])%list.
Proof. vm_compute. reflexivity. Qed.

Example plain_post :
  log (world_of (send_quote (count_draw (Sample.joined Sample.reliable)))) =
  (log (Sample.joined Sample.reliable) ++
   [EvSend "sergeSnerge Love is all you need sergeSnerge" true])%list.
Proof. vm_compute. reflexivity. Qed.

(** ** The command handler *)

Lemma event_message_eq (m : Message) (w : World) :
  event_message m w =
  match author m with
  | None => Ok tt w
  | Some a =>
      if String.eqb (PyStr.lower (name a)) (PyStr.lower (nick w)) then Ok tt w
      else
        let w1 := set_last_message (int_of_time (now w)) w in
        match target w with
        | None => Ok tt w1
        | Some ch =>
            match get_chatter ch (name a) with
            | IsChatter =>
                if is_mod a && is_snerge_command (PyStr.lower (content m))
                then send_quote w1
                else Ok tt w1
            | _ => Ok tt w1
            end
        end
  end.
Proof.
  unfold event_message, mbind, M_bind, get, loop_time, modify, mret, M_ret.
  destruct (author m) as [a|]; [|reflexivity].
  destruct (String.eqb _ _); [reflexivity|]. cbn.
  destruct (target w) as [ch|]; [|reflexivity].
  destruct (get_chatter ch (name a)); try reflexivity.
  destruct (is_mod a); [|reflexivity].
  destruct (is_snerge_command _); reflexivity.
Qed.

(** C7. A message whose author is not a moderator never triggers a post,
    whatever it contains.  A message from a moderator (author present and
    not the bot itself, channel connected, lookup giving a full chatter)
    whose lowercased content is ["!snerge"] or starts with ["!snerge "]
    triggers exactly one post: one announcement of one quote is put on the
    wire. *)
Theorem command_authorization (m : Message) (w : World) :
  ((forall a, author m = Some a -> is_mod a = false) ->
     exists w', event_message m w = Ok tt w' /\ silent w w') /\
  (forall a ch,
     author m = Some a ->
     PyStr.lower (name a) <> PyStr.lower (nick w) ->
     target w = Some ch ->
     get_chatter ch (name a) = IsChatter ->
     is_mod a = true ->
     PyStr.lower (content m) = "!snerge" \/
       PyStr.startswith "!snerge " (PyStr.lower (content m)) = true ->
     exists q d, 0 <= d <= 200 /\
       log (world_of (event_message m w)) =
         (log w ++ [EvSend (announcement q d) (send_succeeds (env w) (sends w))])%list /\
       sends (world_of (event_message m w)) = S (sends w)).
Proof.
  rewrite event_message_eq. split.
  - intros Hmod. unfold silent.
    destruct (author m) as [a|]; [|eexists; split; [reflexivity|auto 10]].
    rewrite (Hmod a eq_refl). cbn [andb].
    destruct (String.eqb _ _); [eexists; split; [reflexivity|auto 10]|].
    cbn zeta. destruct (target w) as [ch|];
      [destruct (get_chatter ch (name a))|];
      eexists; (split; [reflexivity|cbn; auto 10]).
  - intros a ch -> Hself Hch Hlook -> Hcmd.
    apply String.eqb_neq in Hself. rewrite Hself, Hch, Hlook. cbn zeta.
    assert (Hc : is_snerge_command (PyStr.lower (content m)) = true).
    { unfold is_snerge_command. destruct Hcmd as [-> | ->]; [reflexivity|].
      apply orb_true_r. }
    rewrite Hc. cbn [andb].
    pose proof (send_quote_log (set_last_message (int_of_time (now w)) w)) as H.
    change (target (set_last_message (int_of_time (now w)) w)) with (target w) in H.
    rewrite Hch in H. exact H.
Qed.

Lemma command_authorization_witness :
  let w := Sample.joined Sample.reliable in
  (exists w', event_message Inbox.from_viewer w = Ok tt w' /\ silent w w') /\
  (exists q d, 0 <= d <= 200 /\
     log (world_of (event_message Inbox.from_moderator w)) =
       (log w ++ [EvSend (announcement q d) (send_succeeds (env w) (sends w))])%list /\
     sends (world_of (event_message Inbox.from_moderator w)) = S (sends w)).
Proof.
  split.
  - apply (proj1 (command_authorization Inbox.from_viewer (Sample.joined Sample.reliable))).
    intros a [= <-]. reflexivity.
  - apply (proj2 (command_authorization Inbox.from_moderator (Sample.joined Sample.reliable))
             {| name := "Mona"; is_mod := true |} Sample.room);
      try reflexivity.
    + vm_compute. discriminate.
    + right. reflexivity.
Defined.

Example moderator_command_posts :
  log (world_of (event_message Inbox.from_moderator (Sample.joined Sample.reliable))) =
  (log (Sample.joined Sample.reliable) ++
   [EvSend "[UwU] Wwuw is aww you need [UwU]" true])%list.
Proof. vm_compute. reflexivity. Qed.

Example viewer_command_ignored :
  log (world_of (event_message Inbox.from_viewer (Sample.joined Sample.reliable))) =
  log (Sample.joined Sample.reliable).
Proof. vm_compute. reflexivity. Qed.

Example loopback_ignored :
  event_message Inbox.from_self (Sample.joined Sample.reliable) = Ok tt (Sample.joined Sample.reliable).
Proof. vm_compute. reflexivity. Qed.

(** C8. While no channel is connected a post is a no-op: [send_quote]
    returns at once, leaving the world as it was, so no quote is requested
    and nothing is sent; this holds for the post a tick has queued, and a
    message handled while disconnected requests and sends nothing either. *)
Theorem send_quote_disconnected (w : World) :
  target w = None ->
  send_quote w = Ok tt w /\
  (forall m, exists w', event_message m w = Ok tt w' /\ silent w w' /\ target w' = None).
Proof.
  intros Hnone. split.
  - pose proof (send_quote_log w) as H. now rewrite Hnone in H.
  - intros m. rewrite event_message_eq, Hnone. unfold silent.
    destruct (author m) as [a|]; [|eexists; split; [reflexivity|auto 10]].
    destruct (String.eqb _ _); eexists; (split; [reflexivity|cbn; auto 10]).
Qed.

Lemma send_quote_disconnected_witness :
  let w := Sample.fresh Sample.reliable in
  send_quote w = Ok tt w /\
  (forall m, exists w', event_message m w = Ok tt w' /\ silent w w' /\ target w' = None).
Proof. apply (send_quote_disconnected (Sample.fresh Sample.reliable)). reflexivity. Defined.

(** ** What each handler does to the scheduler state *)

Lemma same_scheduler_loop a b : same_scheduler a b -> same_loop a b.
Proof. unfold same_scheduler, same_loop. tauto. Qed.

Lemma same_loop_trans a b c : same_loop a b -> same_loop b c -> same_loop a c.
Proof. unfold same_loop. intuition congruence. Qed.

Lemma event_message_loop m w : same_loop (world_of (event_message m w)) w.
Proof.
  rewrite event_message_eq.
  assert (Hq : same_loop (world_of (send_quote (set_last_message (int_of_time (now w)) w))) w).
  { eapply same_loop_trans; [apply same_scheduler_loop, send_quote_scheduler|].
    unfold same_loop. cbn. auto. }
  assert (Hset : same_loop (set_last_message (int_of_time (now w)) w) w)
    by (unfold same_loop; cbn; auto).
  assert (Hid : same_loop w w) by (unfold same_loop; auto).
  destruct (author m) as [a|]; [|exact Hid].
  destruct (String.eqb _ _); [exact Hid|]. cbn zeta.
  destruct (target w) as [ch|]; [|exact Hset].
  destruct (get_chatter ch (name a)); try exact Hset.
  destruct (is_mod a && _); [exact Hq | exact Hset].
Qed.

Lemma join_until_target_loop fuel : forall w,
  same_loop (world_of (join_until_target fuel w)) w.
Proof.
  induction fuel as [|fuel IH]; intros w; cbn [join_until_target].
  - destruct (target w); unfold same_loop; cbn; auto.
  - destruct (target w); [unfold same_loop; cbn; auto|].
    eapply same_loop_trans; [apply IH|]. unfold same_loop. cbn. auto.
Qed.

(** [event_ready] touches the scheduler only by queueing the first tick, and
    that only if the greeting went out. *)
Lemma event_ready_effect fuel w :
  let w' := world_of (event_ready fuel w) in
  _stop w' = _stop w /\ _timer w' = _timer w /\ timers w' = timers w /\
  (ready w' = ready w \/ ready w' = (ready w ++ [TQueueQuote])%list).
Proof.
  pose proof (join_until_target_loop fuel w) as Hj.
  unfold event_ready, mbind, M_bind.
  destruct (join_until_target fuel w) as [[] w1 | e w1 | w1];
    cbn [world_of] in Hj; destruct Hj as (Hs & Ht & Hts & Hr).
  - unfold send. destruct (send_succeeds (env w1) (sends w1)); cbn;
      rewrite Hs, Ht, Hts, Hr; auto.
  - cbn. auto.
  - cbn. auto.
Qed.

Lemma randint_cases a b w :
  randint a b w = Raise ValueError w \/
  exists d, randint a b w = Ok d (count_draw w).
Proof. unfold randint. destruct (b <? a); eauto. Qed.

Lemma queued_app w t :
  length (List.filter is_tick (ready w ++ [t])) =
  (queued w + if is_tick t then 1 else 0)%nat.
Proof.
  unfold queued. rewrite List.filter_app, length_app. cbn.
  destruct (is_tick t); reflexivity.
Qed.

(** A tick either finds the flag raised and does nothing at all, or leaves
    the flag down, queues no tick, and arms at most one timer, the handle of
    which it remembers. *)
Lemma queue_quote_effect w :
  (_stop w = true /\ queue_quote w = Ok tt w) \/
  (_stop w = false /\
   let w' := world_of (queue_quote w) in
   _stop w' = false /\ queued w' = queued w /\
   ((timers w' = timers w /\ _timer w' = _timer w) \/
    (exists d, timers w' = (timers w ++ [tick_timer (length (timers w)) (now w) d])%list /\
               _timer w' = Some (length (timers w))))).
Proof.
  unfold queue_quote, mbind, M_bind, get.
  destruct (_stop w) eqn:Hs; [left; auto | right; split; [reflexivity|]].
  cbn zeta.
  destruct (target w) as [ch|].
  - unfold loop_time. destruct (Qlt_bool _ _).
    + destruct (randint_cases (chat_active_probe (config w)).1
                  (chat_active_probe (config w)).2 w) as [-> | [d ->]]; cbn.
      * auto.
      * split; [exact Hs|]. split; [reflexivity|]. right. exists d. auto.
    + unfold create_task, modify.
      destruct (randint_cases (auto_quote_time (config w)).1
                  (auto_quote_time (config w)).2
                  (set_ready (ready w ++ [TSendQuote]) w)) as [-> | [d ->]]; cbn.
      * split; [exact Hs|]. split; [|auto].
        unfold queued at 1. cbn. rewrite queued_app. unfold queued. cbn. lia.
      * split; [exact Hs|]. split; [|right; exists d; auto].
        unfold queued at 1. cbn. rewrite queued_app. unfold queued. cbn. lia.
  - destruct (randint_cases (startup_probe (config w)).1
                (startup_probe (config w)).2 w) as [-> | [d ->]]; cbn.
    + auto.
    + split; [exact Hs|]. split; [reflexivity|]. right. exists d. auto.
Qed.

(** ** The scheduler invariant *)

Lemma nil_of_no_member {A} (l : list A) : (forall x, ~ In x l) -> l = [].
Proof. destruct l as [|x l]; [reflexivity|]. intros H. destruct (H x). now left. Qed.

Lemma length_0_nil {A} (l : list A) : length l = 0%nat -> l = [].
Proof. now destruct l. Qed.

Lemma inv_same_loop s s' :
  same_loop (world s') (world s) -> readies s' = readies s ->
  Inv s -> Inv s'.
Proof.
  intros (Hs & Ht & Hts & Hr) Hd [H1 H2 H3].
  unfold queued, pending in *. split; unfold queued, pending;
    rewrite ?Hs, ?Ht, ?Hts, ?Hr, ?Hd; assumption.
Qed.

(** Marking the timers of handle [h] as cancelled or as fired leaves
    outstanding only timers that were outstanding under another handle. *)
Lemma live_after_cancel h l t :
  In t (List.filter live (map (cancel_timer h) l)) ->
  exists t0, In t0 (List.filter live l) /\ tid t0 <> h.
Proof.
  rewrite List.filter_In, List.in_map_iff. intros [(t0 & <- & Hin) Hlive].
  exists t0. unfold cancel_timer in Hlive.
  destruct (Nat.eqb_spec (tid t0) h) as [_|Hne]; [discriminate|].
  rewrite List.filter_In. auto.
Qed.

Lemma live_after_fire h l t :
  In t (List.filter live (map (fire_timer h) l)) ->
  exists t0, In t0 (List.filter live l) /\ tid t0 <> h.
Proof.
  rewrite List.filter_In, List.in_map_iff. intros [(t0 & <- & Hin) Hlive].
  exists t0. unfold fire_timer in Hlive.
  destruct (Nat.eqb_spec (tid t0) h) as [_|Hne].
  - unfold live in Hlive. cbn in Hlive. rewrite andb_false_r in Hlive. discriminate.
  - rewrite List.filter_In. auto.
Qed.

(** Cancelling never adds an outstanding timer; firing an outstanding timer
    takes at least that one away. *)
Lemma cancel_pending_le h l :
  (length (List.filter live (map (cancel_timer h) l))
   <= length (List.filter live l))%nat.
Proof.
  induction l as [|x l IH]; cbn [map List.filter]; [lia|].
  unfold cancel_timer at 1. destruct (tid x =? h)%nat.
  - unfold live at 1. cbn. destruct (live x); cbn; lia.
  - destruct (live x); cbn; lia.
Qed.

Lemma fire_pending_le h l :
  (length (List.filter live (map (fire_timer h) l))
   <= length (List.filter live l))%nat.
Proof.
  induction l as [|x l IH]; cbn [map List.filter]; [lia|].
  unfold fire_timer at 1. destruct (tid x =? h)%nat.
  - unfold live at 1. cbn. rewrite andb_false_r. destruct (live x); cbn; lia.
  - destruct (live x); cbn; lia.
Qed.

Lemma fire_pending_lt h l t :
  In t l -> live t = true -> tid t = h ->
  (length (List.filter live (map (fire_timer h) l))
   < length (List.filter live l))%nat.
Proof.
  intros Hin Hlive Hid. induction l as [|x l IH]; [destruct Hin|].
  cbn [map List.filter]. destruct Hin as [-> | Hin].
  - unfold fire_timer at 1. rewrite Hid, Nat.eqb_refl.
    unfold live at 1. cbn. rewrite andb_false_r, Hlive. cbn.
    pose proof (fire_pending_le h l). lia.
  - specialize (IH Hin). unfold fire_timer at 1. destruct (tid x =? h)%nat.
    + unfold live at 1. cbn. rewrite andb_false_r. destruct (live x); cbn; lia.
    + destruct (live x); cbn; lia.
Qed.

Lemma inv_boot e c n t0 : Inv (boot e c n t0).
Proof. split; cbn; [lia | tauto | reflexivity]. Qed.

Lemma inv_ready fuel s :
  Inv s ->
  Inv {| world := world_of (event_ready fuel (world s)); readies := S (readies s) |}.
Proof.
  intros [H1 _ _].
  destruct (event_ready_effect fuel (world s)) as (Hs & Ht & Hts & Hr).
  assert (Hp : pending (world_of (event_ready fuel (world s))) = pending (world s))
    by (unfold pending; now rewrite Hts).
  assert (Hq : (queued (world_of (event_ready fuel (world s))) <= S (queued (world s)))%nat).
  { unfold queued. destruct Hr as [-> | ->]; [lia|].
    rewrite List.filter_app, length_app. cbn. lia. }
  assert (Hnil : (S (readies s) <= 1)%nat -> pending (world s) = [])
    by (intros Hone; apply length_0_nil; lia).
  split; cbn [world readies]; rewrite ?Hp.
  - lia.
  - intros Hone t. rewrite (Hnil Hone). intros [].
  - intros Hone _. exact (Hnil Hone).
Qed.

Lemma inv_tick rest s :
  ready (world s) = TQueueQuote :: rest -> Inv s ->
  Inv {| world := world_of (queue_quote (set_ready rest (world s)));
         readies := readies s |}.
Proof.
  intros Hr [H1 H2 H3].
  assert (Hq : queued (world s) = S (queued (set_ready rest (world s))))
    by (unfold queued; now rewrite Hr).
  rewrite Hq in H1.
  assert (Hnil : (readies s <= 1)%nat -> pending (world s) = [])
    by (intros Hone; apply length_0_nil; lia).
  destruct (queue_quote_effect (set_ready rest (world s)))
    as [[Hs ->] | [Hs (Hs' & Hq' & Harm)]].
  - split; cbn [world readies world_of];
      change (pending (set_ready rest (world s))) with (pending (world s)).
    + lia.
    + intros Hone t. rewrite (Hnil Hone). intros [].
    + intros Hone _. exact (Hnil Hone).
  - destruct Harm as [[Hts Ht] | (d & Hts & Ht)].
    + assert (Hp : pending (world_of (queue_quote (set_ready rest (world s))))
                   = pending (world s)) by (unfold pending; now rewrite Hts).
      split; cbn [world readies]; rewrite ?Hp, ?Hq'.
      * lia.
      * intros Hone t. rewrite (Hnil Hone). intros [].
      * intros Hone _. exact (Hnil Hone).
    + assert (Hp : pending (world_of (queue_quote (set_ready rest (world s)))) =
                   (pending (world s) ++
                    [tick_timer (length (timers (world s))) (now (world s)) d])%list).
      { unfold pending. rewrite Hts, List.filter_app. reflexivity. }
      split; cbn [world readies]; rewrite ?Hp, ?Hq'.
      * rewrite length_app. cbn [length]. lia.
      * intros Hone t. rewrite (Hnil Hone). intros [<- | []]. exact Ht.
      * intros _. rewrite Hs'. discriminate.
Qed.

Lemma inv_fire h s w' :
  fire h (world s) = Some w' -> Inv s ->
  Inv {| world := w'; readies := readies s |}.
Proof.
  unfold fire. intros Hf [H1 H2 H3].
  destruct (List.find _ _) as [t|] eqn:Hfind; [|discriminate].
  destruct (live t && _) eqn:Hlive; [|discriminate].
  injection Hf as <-.
  apply List.find_some in Hfind. destruct Hfind as [Hin Hid].
  apply Nat.eqb_eq in Hid. apply andb_true_iff in Hlive. destruct Hlive as [Hlive _].
  assert (Ht : In t (pending (world s))) by (apply List.filter_In; auto).
  pose proof (fire_pending_lt h (timers (world s)) t Hin Hlive Hid) as Hlt.
  assert (Hnil : (readies s <= 1)%nat ->
                 List.filter live (map (fire_timer h) (timers (world s))) = []).
  { intros Hone. apply nil_of_no_member. intros x Hx.
    apply live_after_fire in Hx. destruct Hx as (t0 & Ht0 & Hne).
    pose proof (H2 Hone t0 Ht0) as E0. pose proof (H2 Hone t Ht) as E. congruence. }
  split; cbn [world readies]; unfold pending, queued; cbn.
  - rewrite List.filter_app, length_app. cbn. unfold queued, pending in H1.
    destruct (is_tick (tcallback t)); cbn; lia.
  - intros Hone x. rewrite (Hnil Hone). intros [].
  - intros Hone _. exact (Hnil Hone).
Qed.

Lemma inv_stop s :
  Inv s -> Inv {| world := world_of (stop (world s)); readies := readies s |}.
Proof.
  intros [H1 H2 H3].
  destruct (stop_scheduler (world s)) as (Hs & Ht & Hts & Hr & _).
  assert (Hle : (length (pending (world_of (stop (world s))))
                 <= length (pending (world s)))%nat).
  { unfold pending. rewrite Hts, timers_halted.
    destruct (_timer (world s)); [apply cancel_pending_le | lia]. }
  assert (Hnil : (readies s <= 1)%nat -> pending (world_of (stop (world s))) = []).
  { intros Hone. unfold pending. rewrite Hts, timers_halted.
    apply nil_of_no_member. intros x Hx.
    destruct (_timer (world s)) as [h|] eqn:Eh.
    - apply live_after_cancel in Hx. destruct Hx as (t0 & Ht0 & Hne).
      pose proof (H2 Hone t0 Ht0). congruence.
    - pose proof (H2 Hone x Hx). congruence. }
  split; cbn [world readies].
  - unfold queued in *. rewrite Hr, ready_halted. lia.
  - intros Hone x. rewrite (Hnil Hone). intros [].
  - intros Hone _. exact (Hnil Hone).
Qed.

Lemma inv_exec a s s' : exec a s = Some s' -> Inv s -> Inv s'.
Proof.
  destruct a as [fuel | m | | h | d | ]; cbn [exec].
  - intros [= <-]. apply inv_ready.
  - intros [= <-]. apply inv_same_loop; [apply event_message_loop | reflexivity].
  - destruct (ready (world s)) as [|t rest] eqn:Hr; [discriminate|]. intros [= <-] HI.
    destruct t; cbn [run_task].
    + now apply inv_tick.
    + assert (HI1 : Inv {| world := set_ready rest (world s); readies := readies s |}).
      { destruct HI as [H1 H2 H3]. split; cbn [world readies]; try assumption.
        unfold queued in *. rewrite Hr in H1. cbn in *. exact H1. }
      revert HI1. apply inv_same_loop; [|reflexivity].
      apply same_scheduler_loop, send_quote_scheduler.
  - destruct (fire h (world s)) as [w'|] eqn:Hf; [|discriminate]. intros [= <-] HI.
    eapply inv_fire; eassumption.
  - destruct (Qle_bool 0 d); [|discriminate]. intros [= <-].
    apply inv_same_loop; [|reflexivity]. unfold same_loop. cbn. auto.
  - intros [= <-]. apply inv_stop.
Qed.

Lemma inv_run acts : forall s s', run acts s = Some s' -> Inv s -> Inv s'.
Proof.
  induction acts as [|a acts IH]; intros s s'; cbn [run].
  - now intros [= <-].
  - destruct (exec a s) as [s1|] eqn:He; [|discriminate].
    intros Hrun HI. eapply IH; [exact Hrun|]. eapply inv_exec; eassumption.
Qed.

(** Once the flag is raised it stays raised, and the list of timers the loop
    has ever been given grows no more. *)
Lemma stopped_exec a s s' :
  exec a s = Some s' -> _stop (world s) = true ->
  _stop (world s') = true /\
  length (timers (world s')) = length (timers (world s)).
Proof.
  destruct a as [fuel | m | | h | d | ]; cbn [exec].
  - intros [= <-] Hs. cbn [world].
    destruct (event_ready_effect fuel (world s)) as (-> & _ & -> & _). auto.
  - intros [= <-] Hs. cbn [world].
    destruct (event_message_loop m (world s)) as (-> & _ & -> & _). auto.
  - destruct (ready (world s)) as [|t rest]; [discriminate|]. intros [= <-] Hs.
    cbn [world]. destruct t; cbn [run_task].
    + destruct (queue_quote_effect (set_ready rest (world s)))
        as [[_ ->] | [Hrun _]]; [auto | cbn in Hrun; congruence].
    + destruct (send_quote_scheduler (set_ready rest (world s))) as (-> & _ & -> & _).
      auto.
  - unfold fire. destruct (List.find _ _) as [t|]; [|discriminate].
    destruct (live t && _); [|discriminate]. intros [= <-] Hs. cbn.
    rewrite length_map. auto.
  - destruct (Qle_bool 0 d); [|discriminate]. intros [= <-] Hs. auto.
  - intros [= <-] _. cbn [world].
    destruct (stop_scheduler (world s)) as (-> & _ & -> & _).
    rewrite _stop_halted, timers_halted.
    destruct (_timer (world s)); rewrite ?length_map; auto.
Qed.

Lemma stopped_run acts : forall s s',
  run acts s = Some s' -> _stop (world s) = true ->
  _stop (world s') = true /\
  length (timers (world s')) = length (timers (world s)).
Proof.
  induction acts as [|a acts IH]; intros s s'; cbn [run].
  - intros [= <-]. auto.
  - destruct (exec a s) as [s1|] eqn:He; [|discriminate]. intros Hrun Hs.
    destruct (stopped_exec a s s1 He Hs) as [Hs1 Hl1].
    destruct (IH s1 s' Hrun Hs1) as [Hs' Hl']. split; congruence.
Qed.

Lemma silenced_exec h a s s' :
  exec a s = Some s' -> silenced h s -> silenced h s'.
Proof.
  intros He [Hstop Hall].
  destruct (stopped_exec a s s' He Hstop) as [Hstop' _].
  split; [exact Hstop'|]. revert He.
  destruct a as [fuel | m | | g | d | ]; cbn [exec].
  - intros [= <-]. cbn [world].
    destruct (event_ready_effect fuel (world s)) as (_ & _ & -> & _). exact Hall.
  - intros [= <-]. cbn [world].
    destruct (event_message_loop m (world s)) as (_ & _ & -> & _). exact Hall.
  - destruct (ready (world s)) as [|t rest]; [discriminate|]. intros [= <-].
    cbn [world]. destruct t; cbn [run_task].
    + destruct (queue_quote_effect (set_ready rest (world s)))
        as [[_ ->] | [Hrun _]]; [exact Hall | cbn in Hrun; congruence].
    + destruct (send_quote_scheduler (set_ready rest (world s))) as (_ & _ & -> & _).
      exact Hall.
  - unfold fire. destruct (List.find _ _) as [t|]; [|discriminate].
    destruct (live t && _); [|discriminate]. intros [= <-]. cbn.
    intros t' Hin Hid. apply List.in_map_iff in Hin. destruct Hin as (t0 & <- & Hin).
    unfold fire_timer in *. destruct (tid t0 =? g)%nat; cbn in *; now apply Hall.
  - destruct (Qle_bool 0 d); [|discriminate]. intros [= <-]. exact Hall.
  - intros [= <-]. cbn [world].
    destruct (stop_scheduler (world s)) as (_ & _ & -> & _). rewrite timers_halted.
    destruct (_timer (world s)) as [g|]; [|exact Hall].
    intros t' Hin Hid. apply List.in_map_iff in Hin. destruct Hin as (t0 & <- & Hin).
    unfold cancel_timer in *. destruct (tid t0 =? g)%nat; cbn in *;
      [reflexivity | now apply Hall].
Qed.

Lemma silenced_run h acts : forall s s',
  run acts s = Some s' -> silenced h s -> silenced h s'.
Proof.
  induction acts as [|a acts IH]; intros s s'; cbn [run].
  - now intros [= <-].
  - destruct (exec a s) as [s1|] eqn:He; [|discriminate].
    intros Hrun H0. eapply IH; [exact Hrun|]. eapply silenced_exec; eassumption.
Qed.

Lemma silenced_fire h s : silenced h s -> fire h (world s) = None.
Proof.
  intros [_ Hall]. unfold fire.
  destruct (List.find _ _) as [t|] eqn:Hfind; [|reflexivity].
  apply List.find_some in Hfind. destruct Hfind as [Hin Hid]. apply Nat.eqb_eq in Hid.
  unfold live. now rewrite (Hall t Hin Hid).
Qed.

(** The tell to stop always goes through: it raises the flag, arms no
    timer, and cancels the timer the bot remembers. *)
Lemma exec_stop s :
  exists s1, exec Stop s = Some s1 /\
    _stop (world s1) = true /\
    length (timers (world s1)) = length (timers (world s)) /\
    forall h, _timer (world s) = Some h -> silenced h s1.
Proof.
  eexists. split; [reflexivity|]. cbn [world].
  destruct (stop_scheduler (world s)) as (Hs & _ & Hts & _).
  rewrite Hs, Hts, _stop_halted, timers_halted.
  split; [reflexivity|]. split.
  - destruct (_timer (world s)); rewrite ?length_map; reflexivity.
  - intros h Hh. split; cbn [world]; [rewrite Hs; apply _stop_halted|].
    rewrite Hts, timers_halted, Hh.
    intros t' Hin Hid. apply List.in_map_iff in Hin. destruct Hin as (t0 & <- & Hin).
    unfold cancel_timer in *. destruct (Nat.eqb_spec (tid t0) h); [reflexivity|].
    contradiction.
Qed.

Lemma pending_nil_settled w :
  pending w = [] -> forall t, In t (timers w) -> tcancelled t = true \/ tfired t = true.
Proof.
  intros Hp t Hin.
  destruct (live t) eqn:Hl.
  - assert (In t (pending w)) by (apply List.filter_In; auto).
    rewrite Hp in *. contradiction.
  - unfold live in Hl. apply andb_false_iff in Hl.
    destruct Hl as [Hl|Hl]; apply negb_false_iff in Hl; auto.
Qed.

(** C5, as the code has it.  Take any state [s] the bot reaches from
    [__init__].  The ticks on their way, queued or as outstanding timers,
    are no more than the dispatches of [event_ready]; so at most one timer
    is outstanding as long as [event_ready] was dispatched at most once.
    [stop] always raises the flag [_stop].  From the state [s1] that [stop]
    leaves (or from [s] itself when the flag is raised already), whatever
    happens: the flag stays raised; no timer is armed; a tick returns at
    once and leaves the world as it is, so that the loop running a queued
    tick only takes it off its queue (no post, no timer); the timer the bot
    remembered when [stop] was called never fires; and as long as
    [event_ready] was dispatched at most once, every timer ever armed is
    cancelled or has already fired. *)
Theorem stop_is_final (e : Env) (c : Config) (n : string) (t0 : Q)
    (acts : list Action) (s : Sys) :
  run acts (boot e c n t0) = Some s ->
  (queued (world s) + length (pending (world s)) <= readies s)%nat /\
  ((readies s <= 1)%nat -> (length (pending (world s)) <= 1)%nat) /\
  (exists s1, exec Stop s = Some s1 /\ _stop (world s1) = true) /\
  forall s1 more s',
    exec Stop s = Some s1 \/ (_stop (world s) = true /\ s1 = s) ->
    run more s1 = Some s' ->
    _stop (world s') = true /\
    length (timers (world s')) = length (timers (world s)) /\
    queue_quote (world s') = Ok tt (world s') /\
    (forall rest, ready (world s') = TQueueQuote :: rest ->
       exec RunTask s' =
       Some {| world := set_ready rest (world s'); readies := readies s' |}) /\
    (forall h, exec Stop s = Some s1 -> _timer (world s) = Some h ->
       fire h (world s') = None) /\
    ((readies s' <= 1)%nat ->
       forall t, In t (timers (world s')) -> tcancelled t = true \/ tfired t = true).
Proof.
  intros Hrun.
  assert (HI : Inv s) by (eapply inv_run; [exact Hrun | apply inv_boot]).
  assert (Hquiet : forall w, _stop w = true -> queue_quote w = Ok tt w).
  { intros w Hw. destruct (queue_quote_effect w) as [[_ H] | [H _]]; [exact H | congruence]. }
  split; [apply (inv_count s HI)|].
  split; [intros Hone; pose proof (inv_count s HI); lia|].
  split.
  { destruct (exec_stop s) as (s1 & He & Hs1 & _). eauto. }
  intros s1 more s' Hfrom Hmore.
  assert (H1 : Inv s1 /\ _stop (world s1) = true /\
               length (timers (world s1)) = length (timers (world s))).
  { destruct Hfrom as [He | [Hs ->]]; [|auto].
    split; [eapply inv_exec; eassumption|].
    destruct (exec_stop s) as (s2 & He2 & Hs2 & Hl2 & _).
    rewrite He in He2. injection He2 as <-. auto. }
  destruct H1 as (HI1 & Hs1 & Hl1).
  destruct (stopped_run more s1 s' Hmore Hs1) as [Hs' Hl'].
  split; [exact Hs'|]. split; [congruence|]. split; [now apply Hquiet|].
  split; [|split].
  - intros rest Hready. cbn [exec]. rewrite Hready. cbn [run_task].
    now rewrite (Hquiet (set_ready rest (world s')) Hs').
  - intros h He Hh.
    destruct (exec_stop s) as (s2 & He2 & _ & _ & Hsil).
    rewrite He in He2. injection He2 as <-.
    apply (silenced_fire h). eapply silenced_run; [exact Hmore | now apply Hsil].
  - intros Hone'. apply pending_nil_settled.
    apply (inv_stopped s'); [|exact Hone'|exact Hs'].
    eapply inv_run; [exact Hmore | exact HI1].
Qed.

Lemma stop_is_final_witness :
  let s := Story.midway in
  (queued (world s) + length (pending (world s)) <= readies s)%nat /\
  ((readies s <= 1)%nat -> (length (pending (world s)) <= 1)%nat) /\
  (exists s1, exec Stop s = Some s1 /\ _stop (world s1) = true) /\
  forall s1 more s',
    exec Stop s = Some s1 \/ (_stop (world s) = true /\ s1 = s) ->
    run more s1 = Some s' ->
    _stop (world s') = true /\
    length (timers (world s')) = length (timers (world s)) /\
    queue_quote (world s') = Ok tt (world s') /\
    (forall rest, ready (world s') = TQueueQuote :: rest ->
       exec RunTask s' =
       Some {| world := set_ready rest (world s'); readies := readies s' |}) /\
    (forall h, exec Stop s = Some s1 -> _timer (world s) = Some h ->
       fire h (world s') = None) /\
    ((readies s' <= 1)%nat ->
       forall t, In t (timers (world s')) -> tcancelled t = true \/ tfired t = true).
Proof.
  apply (stop_is_final Sample.reliable Sample.settings "SnergeBot" (5 # 2)
           Story.prelude Story.midway).
  vm_compute. reflexivity.
Defined.

(** C5 as stated fails: nothing keeps the transport from dispatching
    [event_ready] a second time, and each dispatch starts a chain of ticks
    of its own.  After two dispatches two timers are outstanding at the
    same instant; [stop] cancels the one the bot remembers, and the other
    is still outstanding, not cancelled, after the stop.  (When it fires,
    its tick returns at once.) *)
Lemma second_ready_second_timer :
  exists s, run [Ready 3; Ready 0; RunTask; RunTask] Story.start = Some s /\
    readies s = 2%nat /\
    _timer (world s) = Some 1%nat /\
    map tid (pending (world s)) = [0; 1]%nat /\
    (2 <= length (pending (world s)))%nat /\
    exists s', run [Stop] s = Some s' /\
      _stop (world s') = true /\
      map tid (pending (world s')) = [0]%nat /\
      map tcancelled (timers (world s')) = [false; true] /\
      map tfired (timers (world s')) = [false; false].
Proof.
  eexists. split; [vm_compute; reflexivity|].
  split; [reflexivity|]. split; [reflexivity|].
  split; [vm_compute; reflexivity|]. split; [vm_compute; lia|].
  eexists. split; [vm_compute; reflexivity|]. vm_compute. auto.
Qed.

(** Without the contract the count is all that remains: two dispatches of
    [event_ready] start two chains of ticks, and two timers are outstanding
    at once. *)
Example two_dispatches_two_timers :
  exists s, run [Ready 3; Ready 0; RunTask; RunTask] Story.start = Some s /\
    readies s = 2%nat /\ map tid (pending (world s)) = [0; 1]%nat.
Proof. eexists. split; [vm_compute; reflexivity|]. vm_compute. auto. Qed.

Example story_end :
  _stop (world Story.finish) = true /\
  ready (world Story.finish) = [TSendQuote; TQueueQuote] /\
  map tcancelled (timers (world Story.finish)) = [true] /\
  map tfired (timers (world Story.finish)) = [true] /\
  log (world Story.finish) =
    [EvJoin "den"; EvJoin "den"; EvSend "Never fear, Snerge is here!" true;
     EvSend "sergeSnerge Sleepy time!" true; EvClose].
Proof. vm_compute. auto 10. Qed.

Example story_aftermath :
  exists s', run [RunTask; RunTask] Story.finish = Some s' /\
    ready (world s') = [] /\ length (timers (world s')) = 1%nat /\
    log (world s') =
      (log (world Story.finish) ++
       [EvSend "sergeSnerge Love is all you need sergeSnerge" true])%list.
Proof. eexists. split; [vm_compute; reflexivity|]. vm_compute. repeat split. Qed.

(** ** The guess handler *)

Example first_reply_wins :
  GuessHandler.guesses Guessing.keep_first = [("ann", 12); ("bo", 7); ("cy", 30)].
Proof. reflexivity. Qed.

Example latest_reply_wins :
  GuessHandler.guesses Guessing.keep_latest = [("ann", 12); ("bo", 99); ("cy", 30)].
Proof. reflexivity. Qed.

Example score_between :
  GuessHandler.get_score Guessing.keep_first (GuessHandler.PyInt 15) true = inr (["ann"], {[ 12 ]}).
Proof. vm_compute. reflexivity. Qed.

Example score_above_all :
  GuessHandler.get_score Guessing.keep_first (GuessHandler.PyInt 31) true = inr (["bo"], {[ 7 ]}).
Proof. vm_compute. reflexivity. Qed.

Example score_below_all :
  GuessHandler.get_score Guessing.keep_first (GuessHandler.Exact (13 # 2)) true = inr (["bo"], {[ 7 ]}).
Proof. vm_compute. reflexivity. Qed.

Example score_nearest :
  GuessHandler.get_score Guessing.keep_first (GuessHandler.PyInt 21) false = inr (["ann"; "cy"], {[ 12; 30 ]}).
Proof. vm_compute. reflexivity. Qed.

Example score_without_guesses :
  GuessHandler.get_score (GuessHandler.init true) (GuessHandler.PyInt 3) true = inl GuessHandler.IndexError.
Proof. reflexivity. Qed.

Section GuessProperties.

Import GuessHandler.

Lemma lookup_store_same name value d : lookup name (store name value d) = Some value.
Proof.
  induction d as [|[k v] rest IH]; cbn.
  - now rewrite String.eqb_refl.
  - destruct (String.eqb k name) eqn:E; cbn; rewrite E; auto.
Qed.

Lemma lookup_store_other name other value d :
  other <> name -> lookup other (store name value d) = lookup other d.
Proof.
  intros Hne. induction d as [|[k v] rest IH]; cbn.
  - apply String.eqb_neq in Hne. rewrite String.eqb_sym in Hne. now rewrite Hne.
  - destruct (String.eqb k name) eqn:E; cbn.
    + apply String.eqb_eq in E. subst k.
      destruct (String.eqb name other) eqn:E'; [|reflexivity].
      apply String.eqb_eq in E'. congruence.
    + now rewrite IH.
Qed.

(** Storing keeps the order of the names already there. *)
Lemma store_keys name value d :
  map fst (store name value d) =
  if contains name d then map fst d else (map fst d ++ [name])%list.
Proof.
  unfold contains. induction d as [|[k v] rest IH]; cbn; [reflexivity|].
  destruct (String.eqb k name) eqn:E; cbn; [reflexivity|].
  rewrite IH. now destruct (lookup name rest).
Qed.

(** C9. [accept_guess] records [value] for [name] when the handler keeps
    the latest reply or [name] has no guess yet; when the handler keeps
    the first reply and [name] has a guess, that guess stays; the guesses
    of all other names are never touched. *)
Theorem accept_guess_policy (self : guess_handler) (name : string) (value : Z) :
  (use_latest_reply self = true \/ lookup name (guesses self) = None ->
     lookup name (guesses (accept_guess self name value)) = Some value) /\
  (use_latest_reply self = false -> lookup name (guesses self) <> None ->
     lookup name (guesses (accept_guess self name value))
     = lookup name (guesses self) /\
     accept_guess self name value = self) /\
  (forall other, other <> name ->
     lookup other (guesses (accept_guess self name value))
     = lookup other (guesses self)) /\
  use_latest_reply (accept_guess self name value) = use_latest_reply self.
Proof.
  unfold accept_guess, contains. split; [|split; [|split]].
  - intros [Hl | Hn].
    + rewrite Hl. apply lookup_store_same.
    + rewrite Hn. destruct (use_latest_reply self); apply lookup_store_same.
  - intros Hl Hn. rewrite Hl.
    destruct (lookup name (guesses self)) eqn:E; cbn; [auto | congruence].
  - intros other Hne.
    destruct (use_latest_reply self); cbn; [now apply lookup_store_other|].
    destruct (lookup name (guesses self)) eqn:E; cbn; [reflexivity|].
    now apply lookup_store_other.
  - destruct (use_latest_reply self) eqn:El; cbn; [reflexivity|].
    destruct (lookup name (guesses self)); cbn; congruence.
Qed.

End GuessProperties.

Lemma accept_guess_policy_witness :
  let self := Guessing.keep_first in
  (GuessHandler.lookup "dee" (GuessHandler.guesses (GuessHandler.accept_guess self "dee" 41))
     = Some 41) /\
  (GuessHandler.lookup "bo" (GuessHandler.guesses (GuessHandler.accept_guess self "bo" 41))
     = GuessHandler.lookup "bo" (GuessHandler.guesses self) /\
   GuessHandler.accept_guess self "bo" 41 = self) /\
  (GuessHandler.lookup "ann" (GuessHandler.guesses (GuessHandler.accept_guess self "bo" 41))
     = GuessHandler.lookup "ann" (GuessHandler.guesses self)).
Proof.
  split; [|split].
  - apply (proj1 (accept_guess_policy Guessing.keep_first "dee" 41)). right. reflexivity.
  - apply (proj1 (proj2 (accept_guess_policy Guessing.keep_first "bo" 41)));
      [reflexivity | discriminate].
  - apply (proj1 (proj2 (proj2 (accept_guess_policy Guessing.keep_first "bo" 41)))).
    discriminate.
Defined.

Section ScoreProperties.

Import GuessHandler.

Lemma lt_int_exact (value : Number) (q : Q) (i : Z) :
  exact_value value = Some q -> lt_int value i = Qlt_bool q (inject_Z i).
Proof. unfold lt_int. now intros ->. Qed.

Lemma scan_not_over_never (value : Number) (q : Q) (result : Z) (rest : list Z) :
  exact_value value = Some q ->
  (forall i, In i rest -> (inject_Z i <= q)%Q) ->
  forall last_i, scan_not_over value result last_i rest = result.
Proof.
  intros Hq.
  induction rest as [|i rest IH]; intros Hall last_i; cbn; [reflexivity|].
  assert (Hi : Qlt_bool q (inject_Z i) = false).
  { apply not_true_is_false. rewrite Qlt_bool_iff.
    apply Qle_not_lt, Hall. now left. }
  rewrite (lt_int_exact value q i Hq), Hi. apply IH. intros j Hj. apply Hall. now right.
Qed.

Lemma scan_not_over_at_once (value : Number) (q : Q) (first : Z) (rest : list Z) :
  exact_value value = Some q ->
  (forall i, In i rest -> (q < inject_Z i)%Q) ->
  scan_not_over value first first rest = first.
Proof.
  intros Hq. destruct rest as [|i rest]; intros Hall; cbn; [reflexivity|].
  assert (Hi : Qlt_bool q (inject_Z i) = true)
    by (apply Qlt_bool_iff, Hall; now left).
  now rewrite (lt_int_exact value q i Hq), Hi.
Qed.

(** The sorted values start with the least guess on record. *)
Lemma sorted_guesses_head (d : list (string * Z)) :
  d <> [] ->
  exists first rest,
    merge_sort Z.le (map snd d) = first :: rest /\
    (exists name, In (name, first) d) /\
    (forall name g, In (name, g) d -> first <= g) /\
    (forall i, In i rest -> exists name, In (name, i) d).
Proof.
  intros Hne.
  pose proof (merge_sort_Permutation Z.le (map snd d)) as Hperm.
  pose proof (StronglySorted_merge_sort Z.le (map snd d)) as Hsort.
  destruct (merge_sort Z.le (map snd d)) as [|first rest].
  - apply Permutation_nil in Hperm. destruct d; [congruence | discriminate].
  - exists first, rest. split; [reflexivity|].
    assert (Hback : forall i, In i (first :: rest) -> exists name, In (name, i) d).
    { intros i Hi. eapply Permutation_in in Hi; [|exact Hperm].
      apply List.in_map_iff in Hi. destruct Hi as ([name g] & <- & Hin). eauto. }
    split; [apply Hback; now left|]. split.
    + intros name g Hin.
      assert (Hg : In g (first :: rest)).
      { eapply Permutation_in; [symmetry; exact Hperm|].
        apply List.in_map_iff. exists (name, g). auto. }
      apply StronglySorted_inv in Hsort. destruct Hsort as [_ Hle].
      destruct Hg as [<- | Hg]; [lia|].
      rewrite List.Forall_forall in Hle. now apply Hle.
    + intros i Hi. apply Hback. now right.
Qed.

(** C10. With at least one guess on record, closest-without-going-over
    returns the set holding just the least guess both when [value] is at
    least every guess and when [value] is strictly below every guess (the
    least guess then exceeds [value]); the names returned are those whose
    guess is the least.  [value] is any finite number, exact or [float],
    and [q] the rational it stands for. *)
Theorem get_score_least_guess (self : guess_handler) (value : Number) (q : Q) :
  exact_value value = Some q ->
  guesses self <> [] ->
  (forall name g, In (name, g) (guesses self) -> (inject_Z g <= q)%Q) \/
  (forall name g, In (name, g) (guesses self) -> (q < inject_Z g)%Q) ->
  exists least,
    (exists name, In (name, least) (guesses self)) /\
    (forall name g, In (name, g) (guesses self) -> least <= g) /\
    get_score self value true =
      inr (map fst (List.filter (fun kv => bool_decide (kv.2 ∈ ({[ least ]} : gset Z)))
                      (guesses self)),
           {[ least ]}).
Proof.
  intros Hq Hne Hside.
  destruct (sorted_guesses_head (guesses self) Hne)
    as (first & rest & Hraw & Hin & Hleast & Hrest).
  exists first. split; [exact Hin|]. split; [exact Hleast|].
  unfold get_score, result_values_of. rewrite Hraw.
  assert (Hscan : scan_not_over value first first rest = first).
  { destruct Hside as [Hge | Hlt].
    - apply (scan_not_over_never value q); [exact Hq|]. intros i Hi.
      destruct (Hrest i Hi) as (name & Hn). eapply Hge, Hn.
    - apply (scan_not_over_at_once value q); [exact Hq|]. intros i Hi.
      destruct (Hrest i Hi) as (name & Hn). eapply Hlt, Hn. }
  now rewrite Hscan.
Qed.

End ScoreProperties.

Lemma get_score_least_guess_witness :
  let self := Guessing.keep_first in
  (exists least,
     (exists name, In (name, least) (GuessHandler.guesses self)) /\
     (forall name g, In (name, g) (GuessHandler.guesses self) -> least <= g) /\
     GuessHandler.get_score self (GuessHandler.PyInt 40) true =
       inr (map fst (List.filter (fun kv => bool_decide (kv.2 ∈ ({[ least ]} : gset Z)))
                       (GuessHandler.guesses self)),
            {[ least ]})) /\
  (exists least,
     (exists name, In (name, least) (GuessHandler.guesses self)) /\
     (forall name g, In (name, g) (GuessHandler.guesses self) -> least <= g) /\
     GuessHandler.get_score self Numbers.half true =
       inr (map fst (List.filter (fun kv => bool_decide (kv.2 ∈ ({[ least ]} : gset Z)))
                       (GuessHandler.guesses self)),
            {[ least ]})).
Proof.
  split.
  - apply (get_score_least_guess Guessing.keep_first (GuessHandler.PyInt 40) 40);
      [reflexivity | discriminate |].
    left. intros name g [[= <- <-] | [[= <- <-] | [[= <- <-] | []]]]; vm_compute; discriminate.
  - apply (get_score_least_guess Guessing.keep_first Numbers.half
             (4503599627370496 # 9007199254740992));
      [reflexivity | discriminate |].
    right. intros name g [[= <- <-] | [[= <- <-] | [[= <- <-] | []]]]; vm_compute; reflexivity.
Defined.

(** ** More on the guess handler *)

Section ScoreMore.

Import GuessHandler.

(** The sorted values are the guesses on record, in ascending order. *)
Lemma raw_values_spec (self : guess_handler) :
  let raw := merge_sort Z.le (map snd (guesses self)) in
  StronglySorted Z.le raw /\
  (forall g, In g raw <-> on_record self g) /\
  (raw = [] <-> guesses self = []).
Proof.
  cbn zeta.
  pose proof (merge_sort_Permutation Z.le (map snd (guesses self))) as Hperm.
  split; [apply StronglySorted_merge_sort; apply _|]. split.
  - intros g. unfold on_record. split.
    + intros Hin. eapply Permutation_in in Hin; [|exact Hperm].
      apply List.in_map_iff in Hin. destruct Hin as ([name g'] & <- & Hin). eauto.
    + intros [name Hin]. eapply Permutation_in; [symmetry; exact Hperm|].
      apply List.in_map_iff. exists (name, g). auto.
  - split.
    + intros E. rewrite E in Hperm.
      apply Permutation_nil in Hperm. now destruct (guesses self).
    + intros E. rewrite E in *. cbn in Hperm. symmetry in Hperm.
      now apply Permutation_nil in Hperm.
Qed.

(** [min]: the result is on the list. *)
Lemma min_fold_In {D} (ltb : D -> D -> bool) (rest : list D) : forall d,
  In (fold_left (fun least x => if ltb x least then x else least) rest d) (d :: rest).
Proof.
  induction rest as [|y rest IH]; intros d; cbn [fold_left]; [now left|].
  destruct (IH (if ltb y d then y else d)) as [E | Hin]; [|now right; right].
  rewrite <- E. destruct (ltb y d); [now right; left | now left].
Qed.

(** [min] over the rationals: the result is at most every element. *)
Lemma min_fold_Qle (rest : list Q) : forall d x,
  In x (d :: rest) ->
  (fold_left (fun least x => if Qlt_bool x least then x else least) rest d <= x)%Q.
Proof.
  induction rest as [|y rest IH]; intros d x; cbn [fold_left].
  - intros [<- | []]. apply Qle_refl.
  - set (d' := if Qlt_bool y d then y else d).
    assert (Hd : (d' <= d)%Q /\ (d' <= y)%Q).
    { subst d'. destruct (Qlt_bool y d) eqn:E.
      - apply Qlt_bool_iff in E. split; [now apply Qlt_le_weak | apply Qle_refl].
      - split; [apply Qle_refl|].
        apply Qnot_lt_le. rewrite <- Qlt_bool_iff, E. discriminate. }
    intros [<- | [<- | Hx]].
    + eapply Qle_trans; [apply IH; now left | apply Hd].
    + eapply Qle_trans; [apply IH; now left | apply Hd].
    + apply IH. now right.
Qed.

Lemma combine_map_self {A B} (f : A -> B) (l : list A) :
  combine l (map f l) = map (fun x => (x, f x)) l.
Proof. induction l as [|x l IH]; cbn; [reflexivity|]. now rewrite IH. Qed.

(** The values [nearest_of] returns when the differences are [f i]: the
    values on the list whose difference equals the least one. *)
Lemma nearest_of_map {D} (ltb eqb : D -> D -> bool) (f : Z -> D) (r0 : Z) (rest : list Z) :
  exists m values,
    In m (map f (r0 :: rest)) /\
    min_of ltb (map f (r0 :: rest)) = inr m /\
    nearest_of ltb eqb (r0 :: rest) (map f (r0 :: rest)) = inr values /\
    forall v, v ∈ values <-> In v (r0 :: rest) /\ eqb (f v) m = true.
Proof.
  unfold nearest_of. cbn [map min_of].
  exists (fold_left (fun least x => if ltb x least then x else least) (map f rest) (f r0)).
  eexists. split; [apply min_fold_In|]. split; [reflexivity|]. split; [reflexivity|].
  change (f r0 :: map f rest) with (map f (r0 :: rest)).
  rewrite combine_map_self.
  set (m := fold_left _ _ _).
  intros v. rewrite elem_of_list_to_set, list_elem_of_In, List.in_map_iff. split.
  - intros ([v' d] & <- & Hf). apply List.filter_In in Hf. destruct Hf as [Hv Heq].
    apply List.in_map_iff in Hv. destruct Hv as (x & [= <- <-] & Hx). now split.
  - intros [Hv Heq]. exists (v, f v). split; [reflexivity|].
    apply List.filter_In. split; [apply List.in_map_iff; eauto | exact Heq].
Qed.

(** The nearest branch on an exact number: the values returned are the
    values of the list whose distance to [value] is least. *)
Lemma nearest_values_spec (raw : list Z) (value : Q) :
  raw <> [] ->
  exists values,
    result_values_of raw (Exact value) false = inr values /\
    forall v, v ∈ values <->
      In v raw /\
      forall g, In g raw ->
        (Qabs (inject_Z v - value) <= Qabs (inject_Z g - value))%Q.
Proof.
  intros Hne. destruct raw as [|r0 rest]; [congruence|].
  unfold result_values_of.
  set (f := fun i : Z => Qabs (inject_Z i - value)).
  destruct (nearest_of_map Qlt_bool Qeq_bool f r0 rest) as (m & values & Hin & Hmin & Hres & Hspec).
  exists values. split; [exact Hres|].
  assert (Hle : forall g, In g (r0 :: rest) -> (m <= f g)%Q).
  { intros g Hg. cbn [map min_of] in Hmin. injection Hmin as <-.
    apply min_fold_Qle. change (In (f g) (map f (r0 :: rest))).
    apply List.in_map_iff. eauto. }
  apply List.in_map_iff in Hin. destruct Hin as (g0 & Hg0 & Hg0in).
  intros v. rewrite Hspec. split.
  - intros [Hv Heq]. apply Qeq_bool_iff in Heq. split; [exact Hv|].
    intros g Hg. change (f v <= f g)%Q.
    eapply Qle_trans; [apply Qle_lteq; right; exact Heq | now apply Hle].
  - intros [Hv Hleast]. split; [exact Hv|].
    apply Qeq_bool_iff, Qle_antisym; [|now apply Hle].
    rewrite <- Hg0. apply Hleast, Hg0in.
Qed.

(** The closest-without-going-over loop on a sorted list, started with an
    element that is not over: it ends on the greatest element not over. *)
Lemma scan_not_over_floor (value : Number) (q : Q) (result : Z) (rest : list Z) :
  exact_value value = Some q ->
  forall last_i,
    StronglySorted Z.le (last_i :: rest) ->
    (inject_Z last_i <= q)%Q ->
    (exists i, In i rest /\ (q < inject_Z i)%Q) ->
    let r := scan_not_over value result last_i rest in
    In r (last_i :: rest) /\ (inject_Z r <= q)%Q /\
    forall g, In g (last_i :: rest) -> (inject_Z g <= q)%Q -> g <= r.
Proof.
  intros Hq.
  induction rest as [|i rest IH]; intros last_i Hsort Hlast [j [Hj Hover]];
    [destruct Hj|].
  cbn zeta. cbn [scan_not_over].
  apply StronglySorted_inv in Hsort. destruct Hsort as [Hsort' Hall].
  rewrite List.Forall_forall in Hall.
  rewrite (lt_int_exact value q i Hq).
  destruct (Qlt_bool q (inject_Z i)) eqn:E.
  - apply Qlt_bool_iff in E. split; [now left|]. split; [exact Hlast|].
    intros g [<- | Hg] Hle; [lia|].
    exfalso. apply (Qlt_not_le _ _ E). eapply Qle_trans; [|exact Hle].
    rewrite <- Zle_Qle.
    destruct Hg as [<- | Hg]; [lia|].
    apply StronglySorted_inv in Hsort'. destruct Hsort' as [_ Hall'].
    rewrite List.Forall_forall in Hall'. now apply Hall'.
  - assert (Hi : (inject_Z i <= q)%Q).
    { apply Qnot_lt_le. rewrite <- Qlt_bool_iff, E. discriminate. }
    assert (Hmore : exists i', In i' rest /\ (q < inject_Z i')%Q).
    { destruct Hj as [<- | Hj]; [|eauto].
      exfalso. apply (Qlt_not_le _ _ Hover Hi). }
    destruct (IH i Hsort' Hi Hmore) as (Hin & Hle & Hmax).
    split; [now right|]. split; [exact Hle|].
    intros g [<- | Hg] Hg'; [|now apply Hmax].
    transitivity i; [apply Hall; now left | apply Hmax; [now left | exact Hi]].
Qed.

(** Whatever the number, the loop ends on an element of the list. *)
Lemma scan_not_over_In (value : Number) (all : list Z) : forall rest result last_i,
  In result all -> In last_i all -> (forall x, In x rest -> In x all) ->
  In (scan_not_over value result last_i rest) all.
Proof.
  induction rest as [|i rest IH]; intros result last_i Hres Hlast Hsub; cbn;
    [exact Hres|].
  destruct (lt_int value i); [exact Hlast|].
  apply IH; [exact Hres | apply Hsub; now left | intros x Hx; apply Hsub; now right].
Qed.

(** *** Floats: rounding never yields NaN, and a float other than NaN
    equals itself *)

Lemma shr_1_nonneg mrs : 0 <= shr_m mrs -> 0 <= shr_m (shr_1 mrs).
Proof. destruct mrs as [[|[p|p|]|p] r s]; cbn; lia. Qed.

Lemma iter_shr_1_nonneg p : forall mrs,
  0 <= shr_m mrs -> 0 <= shr_m (SpecFloat.iter_pos shr_1 p mrs).
Proof. induction p; intros mrs H; cbn; auto using shr_1_nonneg. Qed.

Lemma shr_fexp_nonneg prec emax m e l :
  0 <= m -> 0 <= shr_m (shr_fexp prec emax m e l).1.
Proof.
  intros H. unfold shr_fexp, shr.
  assert (0 <= shr_m (shr_record_of_loc m l)) by (destruct l as [|[]]; exact H).
  destruct (_ - _); cbn [fst]; auto using iter_shr_1_nonneg.
Qed.

Lemma round_nearest_even_nonneg m l : 0 <= m -> 0 <= round_nearest_even m l.
Proof.
  intros H. destruct l as [|[]]; cbn [round_nearest_even];
    try destruct (Z.even m); lia.
Qed.

Lemma binary_round_aux_not_nan prec emax sx mx ex lx :
  0 <= mx -> binary_round_aux prec emax sx mx ex lx <> S754_nan.
Proof.
  intros H. unfold binary_round_aux.
  pose proof (shr_fexp_nonneg prec emax mx ex lx H) as H1.
  destruct (shr_fexp prec emax mx ex lx) as [mrs' e']. cbn [fst] in H1.
  pose proof (shr_fexp_nonneg prec emax _ e' loc_Exact
                (round_nearest_even_nonneg _ (loc_of_shr_record mrs') H1)) as H2.
  destruct (shr_fexp prec emax _ e' loc_Exact) as [mrs'' e'']. cbn [fst] in H2.
  destruct (shr_m mrs''); [discriminate | destruct (_ <=? _); discriminate | lia].
Qed.

Lemma binary_normalize_not_nan prec emax m e szero :
  binary_normalize prec emax m e szero <> S754_nan.
Proof.
  destruct m as [|p|p]; cbn [binary_normalize]; [discriminate| |];
    unfold binary_round; destruct (shl_align _ _ _) as [mz ez];
    now apply binary_round_aux_not_nan.
Qed.

(** [x - y] is NaN only when [y] is, for a finite [x]. *)
Lemma SFsub_not_nan prec emax x y :
  x <> S754_nan -> (forall s, x <> S754_infinity s) -> y <> S754_nan ->
  SFsub prec emax x y <> S754_nan.
Proof.
  intros Hx Hinf Hy.
  destruct x as [sx|sx| |sx mx ex]; [|destruct (Hinf sx); reflexivity|congruence|];
    destruct y as [sy|sy| |sy my ey]; try congruence; cbn [SFsub];
    try discriminate.
  - destruct sx, sy; discriminate.
  - apply binary_normalize_not_nan.
Qed.

Lemma SFsub_nan prec emax x : SFsub prec emax x S754_nan = S754_nan.
Proof. now destruct x. Qed.

Lemma SFabs_not_nan x : x <> S754_nan -> SFabs x <> S754_nan.
Proof. destruct x; cbn; congruence. Qed.

Lemma SFeqb_refl x : x <> S754_nan -> SFeqb x x = true.
Proof.
  unfold SFeqb. destruct x as [s|s| |s m e]; cbn [SFcompare]; try congruence.
  - now destruct s.
  - intros _. rewrite Z.compare_refl.
    change (Pos.compare_cont Eq m m) with (Pos.compare m m).
    rewrite Pos.compare_refl. now destruct s.
Qed.

Lemma SFeqb_nan x : SFeqb S754_nan x = false.
Proof. reflexivity. Qed.

(** [float(i)], when it exists, is the rounding of [i], and is finite. *)
Lemma float_of_int_inr i x :
  float_of_int i = inr x ->
  x = binary_normalize 53 1024 i 0 false /\
  x <> S754_nan /\ forall s, x <> S754_infinity s.
Proof.
  unfold float_of_int.
  pose proof (binary_normalize_not_nan 53 1024 i 0 false) as Hnan.
  destruct (binary_normalize 53 1024 i 0 false) as [s|s| |s m e];
    intros [= <-]; repeat split; congruence.
Qed.

Lemma float_of_int_inl i e : float_of_int i = inl e -> e = OverflowError.
Proof.
  unfold float_of_int.
  destruct (binary_normalize 53 1024 i 0 false); congruence.
Qed.

(** The differences to a [float]: [OverflowError] exactly when some element
    of the list is beyond the floats, the list of [float_diff]s otherwise. *)
Lemma float_diffs_spec (raw : list Z) (f : spec_float) :
  match float_diffs raw f with
  | inl e => e = OverflowError /\ exists g, In g raw /\ beyond_float g
  | inr diffs =>
      diffs = map (float_diff f) raw /\
      forall g, In g raw ->
        float_of_int g = inr (binary_normalize 53 1024 g 0 false)
  end.
Proof.
  induction raw as [|i raw IH]; cbn [float_diffs].
  - split; [reflexivity | intros g []].
  - destruct (float_of_int i) as [e|x] eqn:Ei.
    + apply float_of_int_inl in Ei as He. subst e.
      split; [reflexivity|]. exists i. split; [now left | exact Ei].
    + destruct (float_of_int_inr i x Ei) as (Hx & _).
      destruct (float_diffs raw f) as [e|diffs].
      * destruct IH as (-> & g & Hg & Hbig).
        split; [reflexivity|]. exists g. split; [now right | exact Hbig].
      * destruct IH as (-> & Hall). split.
        -- subst x. reflexivity.
        -- intros g [<- | Hg]; [now rewrite Ei, Hx | now apply Hall].
Qed.

Lemma float_diff_not_nan (f : spec_float) (g : Z) :
  float_of_int g = inr (binary_normalize 53 1024 g 0 false) ->
  f <> S754_nan -> float_diff f g <> S754_nan.
Proof.
  intros Hg Hf. destruct (float_of_int_inr _ _ Hg) as (_ & Hnan & Hinf).
  unfold float_diff. now apply SFabs_not_nan, SFsub_not_nan.
Qed.

Lemma float_diff_nan (g : Z) : float_diff S754_nan g = S754_nan.
Proof. unfold float_diff. now rewrite SFsub_nan. Qed.

(** Whatever the branch, the values returned are on the list; there is at
    least one, except that nothing is nearest to NaN. *)
Lemma result_values_sound (raw : list Z) (value : Number) (flag : bool) values :
  result_values_of raw value flag = inr values ->
  (forall g, g ∈ values -> In g raw) /\
  (nearest_to_nan value flag -> values = ∅) /\
  (~ nearest_to_nan value flag -> exists g, g ∈ values).
Proof.
  unfold nearest_to_nan. destruct flag.
  - unfold result_values_of. destruct raw as [|first rest]; [discriminate|].
    intros [= <-]. split; [|split].
    + intros g Hg. apply elem_of_singleton in Hg. subst g.
      apply scan_not_over_In; [now left | now left | intros x Hx; now right].
    + intros [[=] _].
    + intros _. eexists. apply elem_of_singleton. reflexivity.
  - destruct value as [q|f].
    + intros Hres. destruct raw as [|r0 rest]; [discriminate|].
      destruct (nearest_values_spec (r0 :: rest) q) as (vs & Hvs & Hspec); [discriminate|].
      rewrite Hvs in Hres. injection Hres as <-.
      split; [intros g Hg; now apply Hspec|]. split; [intros [_ [=]]|]. intros _.
      unfold result_values_of in Hvs.
      set (d := fun i : Z => Qabs (inject_Z i - q)) in *.
      destruct (nearest_of_map Qlt_bool Qeq_bool d r0 rest)
        as (m & vs' & Hin & _ & Hres & Hspec').
      rewrite Hvs in Hres. injection Hres as <-.
      apply List.in_map_iff in Hin. destruct Hin as (g0 & Hg0 & Hg0in).
      exists g0. apply Hspec'. split; [exact Hg0in|].
      rewrite Hg0. apply Qeq_bool_iff. reflexivity.
    + unfold result_values_of.
      pose proof (float_diffs_spec raw f) as Hd.
      destruct (float_diffs raw f) as [e|diffs]; [discriminate|].
      destruct Hd as (-> & Hall).
      destruct raw as [|r0 rest]; [discriminate|].
      destruct (nearest_of_map SFltb SFeqb (float_diff f) r0 rest)
        as (m & vs & Hin & _ & Hres & Hspec).
      rewrite Hres. intros [= <-].
      apply List.in_map_iff in Hin. destruct Hin as (g0 & Hg0 & Hg0in).
      split; [intros g Hg; now apply Hspec|]. split.
      * intros [_ [= ->]]. apply set_eq. intros v. rewrite Hspec.
        rewrite float_diff_nan, SFeqb_nan.
        split; [intros [_ [=]] | intros Hv; now apply not_elem_of_empty in Hv].
      * intros Hnot. exists g0. apply Hspec. split; [exact Hg0in|].
        rewrite Hg0. apply SFeqb_refl. rewrite <- Hg0.
        apply float_diff_not_nan; [now apply Hall|].
        intros ->. now apply Hnot.
Qed.

End ScoreMore.

Section ScoreExtras.

Import GuessHandler.

(** X1. [get_score] raises in two cases only.  With no guess on record it
    raises [IndexError] from [raw_values[0]] when closest-without-going-over
    is asked for and [ValueError] from [min(diffs)] otherwise.  With a
    [float] [value], the nearest guess asked for and a guess on record that
    no float holds, it raises [OverflowError] from [i - value].  In every
    other case it returns. *)
Theorem get_score_raises_iff (self : guess_handler) (value : Number)
    (closest_without_going_over : bool) :
  (guesses self = [] ->
     get_score self value closest_without_going_over =
     inl (if closest_without_going_over then IndexError else ValueError)) /\
  (float_overflow self value closest_without_going_over ->
     get_score self value closest_without_going_over = inl OverflowError) /\
  (guesses self <> [] ->
   ~ float_overflow self value closest_without_going_over ->
     exists names values,
       get_score self value closest_without_going_over = inr (names, values)).
Proof.
  destruct (raw_values_spec self) as (_ & Hmem & Hnil). cbn zeta in Hmem, Hnil.
  unfold get_score. split; [|split].
  - intros E. rewrite (proj2 Hnil E).
    destruct closest_without_going_over; [reflexivity|].
    now destruct value.
  - intros (-> & (f & ->) & g & Hg & Hbig). unfold result_values_of.
    pose proof (float_diffs_spec (merge_sort Z.le (map snd (guesses self))) f) as Hd.
    destruct (float_diffs _ f) as [e|diffs].
    + now destruct Hd as (-> & _).
    + destruct Hd as (_ & Hall). apply Hmem in Hg.
      unfold beyond_float in Hbig. rewrite (Hall g Hg) in Hbig. discriminate.
  - intros Hne Hnot.
    destruct (merge_sort Z.le (map snd (guesses self))) as [|first rest] eqn:Eraw.
    + destruct Hne. now apply Hnil.
    + destruct closest_without_going_over.
      * cbn. eauto.
      * destruct value as [q|f].
        -- destruct (nearest_values_spec (first :: rest) q) as (vs & -> & _);
             [discriminate|]. eauto.
        -- unfold result_values_of.
           pose proof (float_diffs_spec (first :: rest) f) as Hd.
           destruct (float_diffs (first :: rest) f) as [e|diffs].
           ++ destruct Hd as (_ & g & Hg & Hbig). destruct Hnot.
              split; [reflexivity|]. split; [eauto|].
              exists g. split; [now apply Hmem | exact Hbig].
           ++ destruct Hd as (-> & _).
              destruct (nearest_of_map SFltb SFeqb (float_diff f) first rest)
                as (m & vs & _ & _ & -> & _). eauto.
Qed.

(** X2. When some guess is at most [value] and some guess exceeds it,
    closest-without-going-over returns the set of the greatest guess that
    is not over [value], with the names that made it.  [value] is any
    finite number, exact or [float], and [q] the rational it stands for. *)
Theorem get_score_closest_not_over (self : guess_handler) (value : Number) (q : Q) :
  exact_value value = Some q ->
  (exists g, on_record self g /\ (inject_Z g <= q)%Q) ->
  (exists g, on_record self g /\ (q < inject_Z g)%Q) ->
  exists best,
    on_record self best /\ (inject_Z best <= q)%Q /\
    (forall g, on_record self g -> (inject_Z g <= q)%Q -> g <= best) /\
    get_score self value true = inr (winners self {[ best ]}, {[ best ]}).
Proof.
  intros Hq (lo & Hlo & Hlo_le) (hi & Hhi & Hhi_gt).
  destruct (raw_values_spec self) as (Hsort & Hmem & _). cbn zeta in *.
  unfold get_score, result_values_of, winners.
  destruct (merge_sort Z.le (map snd (guesses self))) as [|first rest] eqn:Eraw.
  - apply Hmem in Hlo. destruct Hlo.
  - assert (Hfirst : (inject_Z first <= q)%Q).
    { apply Hmem in Hlo. pose proof Hsort as Hs.
      apply StronglySorted_inv in Hs. destruct Hs as [_ Hall].
      rewrite List.Forall_forall in Hall.
      eapply Qle_trans; [|exact Hlo_le]. rewrite <- Zle_Qle.
      destruct Hlo as [<- | Hlo]; [lia | now apply Hall]. }
    assert (Hover : exists i, In i rest /\ (q < inject_Z i)%Q).
    { exists hi. split; [|exact Hhi_gt]. apply Hmem in Hhi.
      destruct Hhi as [<- | Hhi]; [|exact Hhi].
      exfalso. apply (Qlt_not_le _ _ Hhi_gt Hfirst). }
    destruct (scan_not_over_floor value q first rest Hq first Hsort Hfirst Hover)
      as (Hin & Hle & Hmax).
    exists (scan_not_over value first first rest).
    split; [now apply Hmem|]. split; [exact Hle|]. split; [|reflexivity].
    intros g Hg. apply Hmax. now apply Hmem.
Qed.

Lemma Qabs_diff_le (a b n : Z) :
  (Qabs (inject_Z a - inject_Z n) <= Qabs (inject_Z b - inject_Z n))%Q
  <-> Z.abs (a - n) <= Z.abs (b - n).
Proof.
  unfold Qle, Qabs, Qminus, Qplus, Qopp, inject_Z. cbn.
  rewrite !Z.mul_1_r.
  replace (a + - n) with (a - n) by lia. replace (b + - n) with (b - n) by lia.
  reflexivity.
Qed.

(** X3. Asked for the nearest guess to an integer [n], [get_score] returns
    exactly the guesses on record whose absolute difference to [n] is
    least; both when two guesses are equally near. *)
Theorem get_score_nearest (self : guess_handler) (n : Z) :
  guesses self <> [] ->
  exists values,
    get_score self (PyInt n) false = inr (winners self values, values) /\
    forall v, v ∈ values <->
      on_record self v /\
      forall g, on_record self g -> Z.abs (v - n) <= Z.abs (g - n).
Proof.
  intros Hne.
  destruct (raw_values_spec self) as (_ & Hmem & Hnil). cbn zeta in *.
  unfold get_score, winners, PyInt.
  destruct (nearest_values_spec (merge_sort Z.le (map snd (guesses self))) (inject_Z n))
    as (vs & -> & Hspec).
  { intros E. apply Hne. now apply Hnil. }
  exists vs. split; [reflexivity|].
  intros v. rewrite Hspec, Hmem. split; intros [Hv Hmin]; (split; [exact Hv|]).
  - intros g Hg. apply Qabs_diff_le. apply Hmin. now apply Hmem.
  - intros g Hg. apply Qabs_diff_le. apply Hmin. now apply Hmem.
Qed.

(** X4. Whenever [get_score] returns, the list of names holds exactly the
    names whose guess is among the values returned, and every value
    returned is the guess of one of them.  Somebody wins, with one
    exception: asked for the nearest guess to NaN, [get_score] returns no
    name and no value, since no difference equals the least one. *)
Theorem get_score_winners (self : guess_handler) (value : Number) (flag : bool)
    (names : list string) (values : gset Z) :
  get_score self value flag = inr (names, values) ->
  (names = [] <-> nearest_to_nan value flag) /\
  (nearest_to_nan value flag -> values = ∅) /\
  (forall name, In name names <->
     exists g, In (name, g) (guesses self) /\ g ∈ values) /\
  (forall g, g ∈ values ->
     exists name, In name names /\ In (name, g) (guesses self)).
Proof.
  unfold get_score. intros H.
  destruct (result_values_of _ value flag) as [e|vs] eqn:Eres; [discriminate|].
  injection H as <- <-.
  destruct (result_values_sound _ _ _ _ Eres) as (Hsub & Hnone & Hsome).
  destruct (raw_values_spec self) as (_ & Hmem & _). cbn zeta in Hmem.
  assert (Hnames : forall name,
            In name (map fst (List.filter (fun kv => bool_decide (kv.2 ∈ vs)) (guesses self)))
            <-> exists g, In (name, g) (guesses self) /\ g ∈ vs).
  { intros name. rewrite List.in_map_iff. split.
    - intros ([k g] & <- & Hf). apply List.filter_In in Hf. destruct Hf as [Hin Hdec].
      apply bool_decide_eq_true in Hdec. eauto.
    - intros (g & Hin & Hg). exists (name, g). split; [reflexivity|].
      apply List.filter_In. split; [exact Hin|]. now apply bool_decide_eq_true. }
  assert (Hback : forall g, g ∈ vs ->
            exists name, In name (map fst (List.filter (fun kv => bool_decide (kv.2 ∈ vs))
                                             (guesses self)))
                         /\ In (name, g) (guesses self)).
  { intros g Hg. destruct (proj1 (Hmem g) (Hsub g Hg)) as [name Hin].
    exists name. split; [|exact Hin]. apply Hnames. eauto. }
  split; [|split; [exact Hnone | split; [exact Hnames | exact Hback]]].
  split.
  - intros E.
    destruct flag; [|destruct value as [q|[s|s| |s m e]]];
      try (destruct Hsome as (g0 & Hg0); [now intros [? ?]|];
           destruct (Hback g0 Hg0) as (name & Hin & _); rewrite E in Hin; destruct Hin).
    now split.
  - intros Hnan. specialize (Hnone Hnan). subst vs.
    destruct (map fst _) as [|name rest]; [reflexivity|].
    destruct (proj1 (Hnames name)) as (g & _ & Hg); [now left|].
    set_solver.
Qed.

Lemma use_latest_reply_accept self name value :
  use_latest_reply (accept_guess self name value) = use_latest_reply self.
Proof.
  unfold accept_guess. destruct (use_latest_reply self) eqn:E; [reflexivity|].
  destruct (negb _); [reflexivity | exact E].
Qed.

Lemma replay_snoc latest rs r :
  replay latest (rs ++ [r]) = accept_guess (replay latest rs) r.1 r.2.
Proof. unfold replay. now rewrite fold_left_app. Qed.

Lemma use_latest_reply_replay latest rs :
  use_latest_reply (replay latest rs) = latest.
Proof.
  induction rs as [|r rs IH] using rev_ind; [reflexivity|].
  now rewrite replay_snoc, use_latest_reply_accept.
Qed.

Lemma lookup_snoc name rs n v :
  lookup name (rs ++ [(n, v)]) =
  match lookup name rs with
  | Some g => Some g
  | None => if String.eqb n name then Some v else None
  end.
Proof.
  induction rs as [|[k g] rs IH]; cbn; [reflexivity|].
  destruct (String.eqb k name); [reflexivity | exact IH].
Qed.

Lemma lookup_accept self name value who :
  lookup who (guesses (accept_guess self name value)) =
  if String.eqb name who
  then (if use_latest_reply self then Some value
        else match lookup who (guesses self) with
             | Some g => Some g
             | None => Some value
             end)
  else lookup who (guesses self).
Proof.
  unfold accept_guess, contains.
  destruct (String.eqb_spec name who) as [<- | Hne].
  - destruct (use_latest_reply self); cbn [guesses]; [apply lookup_store_same|].
    destruct (lookup name (guesses self)) eqn:E; cbn [negb guesses];
      [exact E | apply lookup_store_same].
  - assert (Hother : lookup who (store name value (guesses self)) = lookup who (guesses self))
      by (apply lookup_store_other; congruence).
    destruct (use_latest_reply self); cbn [guesses]; [exact Hother|].
    destruct (lookup name (guesses self)); cbn [negb guesses]; [reflexivity | exact Hother].
Qed.

(** X5. After any sequence of replies a name's guess is its first reply when
    the handler keeps first replies, and its last reply when it keeps the
    latest; a name that never replied has no guess. *)
Theorem replay_lookup (replies : list (string * Z)) (name : string) :
  lookup name (guesses (replay false replies)) = lookup name replies /\
  lookup name (guesses (replay true replies)) = lookup name (rev replies).
Proof.
  induction replies as [|[n v] rs [IHf IHl]] using rev_ind; [split; reflexivity|].
  rewrite !replay_snoc, !lookup_accept, !use_latest_reply_replay, IHf, IHl.
  rewrite lookup_snoc, rev_app_distr. cbn [fst snd rev app lookup].
  split.
  - destruct (String.eqb n name); destruct (lookup name rs); reflexivity.
  - destruct (String.eqb n name); reflexivity.
Qed.

Lemma contains_keys name d : contains name d = true <-> In name (map fst d).
Proof.
  unfold contains. induction d as [|[k v] d IH]; cbn; [split; [discriminate | tauto]|].
  destruct (String.eqb_spec k name) as [-> | Hne].
  - split; auto.
  - rewrite IH. split; [auto | intros [E | H]; [congruence | exact H]].
Qed.

Lemma keys_accept self name value :
  map fst (guesses (accept_guess self name value)) =
  if contains name (guesses self) then map fst (guesses self)
  else (map fst (guesses self) ++ [name])%list.
Proof.
  unfold accept_guess.
  destruct (use_latest_reply self); cbn [guesses]; [apply store_keys|].
  destruct (contains name (guesses self)) eqn:E; cbn [negb guesses]; [reflexivity|].
  rewrite store_keys, E. reflexivity.
Qed.

(** X6. However often people reply, each name is on record once: the names
    on record are exactly the names that replied, and [num_replies] is the
    number of distinct names among the replies. *)
Theorem replay_counts_names (latest : bool) (replies : list (string * Z)) :
  NoDup (map fst (guesses (replay latest replies))) /\
  (forall name, In name (map fst (guesses (replay latest replies)))
                <-> In name (map fst replies)) /\
  num_replies (replay latest replies) = length (remove_dups (map fst replies)).
Proof.
  assert (H : NoDup (map fst (guesses (replay latest replies))) /\
              forall name, In name (map fst (guesses (replay latest replies)))
                           <-> In name (map fst replies)).
  { induction replies as [|[n v] rs [IHnd IHin]] using rev_ind.
    - split; [constructor | reflexivity].
    - rewrite replay_snoc, keys_accept. cbn [fst snd].
      destruct (contains n (guesses (replay latest rs))) eqn:E.
      + split; [exact IHnd|]. intros name.
        rewrite map_app, List.in_app_iff, IHin. cbn.
        apply contains_keys in E. apply IHin in E.
        split; [auto | intros [H | [<- | []]]; assumption].
      + assert (Hnot : ~ In n (map fst (guesses (replay latest rs)))).
        { rewrite <- contains_keys, E. discriminate. }
        split.
        * apply NoDup_app. split; [exact IHnd|]. split; [|apply NoDup_singleton].
          intros x Hx Hx'. apply list_elem_of_In in Hx.
          apply list_elem_of_singleton in Hx'. subst x. contradiction.
        * intros name. rewrite map_app, !List.in_app_iff, IHin. reflexivity. }
  destruct H as [Hnd Hin]. split; [exact Hnd|]. split; [exact Hin|].
  unfold num_replies. rewrite <- (length_map fst).
  apply Permutation_length, NoDup_Permutation;
    [exact Hnd | apply NoDup_remove_dups|].
  intros x. rewrite elem_of_remove_dups, !list_elem_of_In. apply Hin.
Qed.

End ScoreExtras.

Lemma get_score_raises_iff_witness :
  GuessHandler.get_score (GuessHandler.init true) Numbers.half false
    = inl GuessHandler.ValueError /\
  GuessHandler.get_score (replay true Polls.with_a_huge_reply) Numbers.half false
    = inl GuessHandler.OverflowError /\
  exists names values,
    GuessHandler.get_score Guessing.keep_latest Numbers.half false = inr (names, values).
Proof.
  split; [|split].
  - apply (proj1 (get_score_raises_iff (GuessHandler.init true) Numbers.half false)).
    reflexivity.
  - apply (proj1 (proj2 (get_score_raises_iff (replay true Polls.with_a_huge_reply)
                           Numbers.half false))).
    split; [reflexivity|]. split; [eexists; reflexivity|].
    exists Numbers.huge. split; [exists "zed"; vm_compute; tauto | vm_compute; reflexivity].
  - apply (proj2 (proj2 (get_score_raises_iff Guessing.keep_latest Numbers.half false)));
      [discriminate|].
    intros (_ & _ & g & (name & Hin) & Hbig).
    vm_compute in Hin.
    destruct Hin as [[= <- <-] | [[= <- <-] | [[= <- <-] | []]]];
      vm_compute in Hbig; discriminate.
Defined.

Lemma get_score_closest_not_over_witness :
  let self := replay true Polls.replies in
  exists best,
    on_record self best /\ (inject_Z best <= 29)%Q /\
    (forall g, on_record self g -> (inject_Z g <= 29)%Q -> g <= best) /\
    GuessHandler.get_score self (GuessHandler.PyInt 29) true
      = inr (winners self {[ best ]}, {[ best ]}).
Proof.
  apply (get_score_closest_not_over (replay true Polls.replies) (GuessHandler.PyInt 29) 29).
  - reflexivity.
  - exists 5. split; [exists "ann"; vm_compute; tauto | vm_compute; discriminate].
  - exists 99. split; [exists "bo"; vm_compute; tauto | vm_compute; reflexivity].
Defined.

Lemma get_score_nearest_witness :
  let self := replay false Polls.replies in
  exists values,
    GuessHandler.get_score self (GuessHandler.PyInt 21) false
      = inr (winners self values, values) /\
    forall v, v ∈ values <->
      on_record self v /\
      forall g, on_record self g -> Z.abs (v - 21) <= Z.abs (g - 21).
Proof. apply (get_score_nearest (replay false Polls.replies) 21). discriminate. Defined.

Lemma get_score_winners_witness :
  let self := replay false Polls.replies in
  (["ann"; "cy"; "dee"] = [] <-> nearest_to_nan (GuessHandler.PyInt 21) false) /\
  (nearest_to_nan (GuessHandler.PyInt 21) false -> ({[ 12; 30 ]} : gset Z) = ∅) /\
  (forall name, In name ["ann"; "cy"; "dee"] <->
     exists g, In (name, g) (GuessHandler.guesses self) /\ g ∈ ({[ 12; 30 ]} : gset Z)) /\
  (forall g, g ∈ ({[ 12; 30 ]} : gset Z) ->
     exists name, In name ["ann"; "cy"; "dee"] /\ In (name, g) (GuessHandler.guesses self)).
Proof.
  apply (get_score_winners (replay false Polls.replies) (GuessHandler.PyInt 21) false).
  vm_compute. reflexivity.
Defined.

Example replay_first_and_latest :
  GuessHandler.guesses (replay false Polls.replies)
    = [("ann", 12); ("bo", 7); ("cy", 30); ("dee", 30)] /\
  GuessHandler.guesses (replay true Polls.replies)
    = [("ann", 5); ("bo", 99); ("cy", 30); ("dee", 30)] /\
  GuessHandler.num_replies (replay true Polls.replies) = 4%nat.
Proof. repeat split. Qed.

Example closest_not_over_in_the_middle :
  GuessHandler.get_score (replay true Polls.replies) (GuessHandler.PyInt 29) true
    = inr ([ "ann" ], {[ 5 ]}) /\
  GuessHandler.get_score (replay true Polls.replies) (GuessHandler.PyInt 30) true
    = inr ([ "cy"; "dee" ], {[ 30 ]}).
Proof. split; vm_compute; reflexivity. Qed.

(** What a [float] brings in. *)

Example nearest_to_a_float :
  GuessHandler.get_score Guessing.keep_first Numbers.twenty_and_a_half false
    = inr (["ann"], {[ 12 ]}).
Proof. vm_compute. reflexivity. Qed.

Example nearest_to_nan_is_nobody :
  GuessHandler.get_score Guessing.keep_first Numbers.nan false = inr ([], ∅) /\
  GuessHandler.get_score Guessing.keep_first Numbers.nan true = inr (["bo"], {[ 7 ]}).
Proof. split; vm_compute; reflexivity. Qed.

Example nearest_to_infinity_is_everybody :
  GuessHandler.get_score Guessing.keep_first Numbers.inf false
    = inr (["ann"; "bo"; "cy"], {[ 7; 12; 30 ]}).
Proof. vm_compute. reflexivity. Qed.

Example huge_guess_overflows :
  let self := replay true Polls.with_a_huge_reply in
  GuessHandler.get_score self Numbers.half false = inl GuessHandler.OverflowError /\
  GuessHandler.get_score self Numbers.half true = inr (["ann"], {[ 5 ]}) /\
  GuessHandler.get_score self (GuessHandler.PyInt 21) false = inr (["cy"; "dee"], {[ 30 ]}).
Proof. repeat split; vm_compute; reflexivity. Qed.

(** [float(2 ** 53 + 1)] is [2.0 ** 53]: next to the float, both guesses are
    at distance zero; next to the [int], one is. *)
Example rounding_makes_ties :
  let self := replay true [("ann", 2 ^ 53); ("bo", 2 ^ 53 + 1)] in
  GuessHandler.get_score self (GuessHandler.PyFloat (Numbers.float_of (2 ^ 53) 0)) false
    = inr (["ann"; "bo"], {[ 2 ^ 53; 2 ^ 53 + 1 ]}) /\
  GuessHandler.get_score self (GuessHandler.PyInt (2 ^ 53)) false
    = inr (["ann"], {[ 2 ^ 53 ]}).
Proof. split; vm_compute; reflexivity. Qed.

Example float_of_int_range :
  GuessHandler.float_of_int (2 ^ 1023) = inr (S754_finite false (2 ^ 52) 971) /\
  beyond_float (2 ^ 1024) /\ beyond_float (- 2 ^ 1024) /\ beyond_float Numbers.huge.
Proof. repeat split; vm_compute; reflexivity. Qed.

(** ** More on the scheduler and on posting *)

Lemma requested_setting k w :
  same_setting (requested k w) w /\ draws (requested k w) = draws w /\
  joins (requested k w) = joins w.
Proof.
  unfold requested, same_setting.
  induction k as [|k IH]; cbn; [auto 10|]. exact IH.
Qed.

Lemma send_quote_setting w : same_setting (world_of (send_quote w)) w.
Proof.
  destruct (target w) as [ch|] eqn:Hch.
  - destruct (send_quote_connected w ch Hch) as (q & k & d & _ & _ & _ & ->).
    destruct (requested_setting k w) as (Hs & _).
    rewrite send_world. exact Hs.
  - pose proof (send_quote_log w) as H. rewrite Hch in H. rewrite H.
    unfold same_setting. auto.
Qed.

Lemma tick_branch_ext a b :
  same_setting a b -> target a = target b -> last_message a = last_message b ->
  tick_branch a = tick_branch b.
Proof.
  intros (Hc & Hn & _ & _) Ht Hl. unfold tick_branch. now rewrite Hc, Hn, Ht, Hl.
Qed.

(** A tick that runs on a non-empty range: everything it does. *)
Lemma queue_quote_armed w :
  _stop w = false ->
  (tick_branch w).1.1 <= (tick_branch w).1.2 ->
  exists d w',
    queue_quote w = Ok tt w' /\
    (tick_branch w).1.1 <= d <= (tick_branch w).1.2 /\
    ready w' = (ready w ++ (tick_branch w).2)%list /\
    timers w' = (timers w ++ [tick_timer (length (timers w)) (now w) d])%list /\
    _timer w' = Some (length (timers w)) /\
    log w' = log w /\ _stop w' = false /\
    same_setting w' w /\ target w' = target w /\ last_message w' = last_message w.
Proof.
  intros Hrun. unfold tick_branch, queue_quote, mbind, M_bind, get, same_setting.
  rewrite Hrun.
  destruct (target w) as [ch|] eqn:Htgt; [unfold loop_time; destruct (Qlt_bool _ _)|];
    cbn [fst snd]; intros Hrange.
  - destruct (randint_in_range _ _ w Hrange) as (d & Hd & ->).
    exists d. eexists. split; [reflexivity|]. cbn. rewrite app_nil_r. repeat split; auto; first [lia | congruence].
  - unfold create_task, modify.
    destruct (randint_in_range _ _ (set_ready (ready w ++ [TSendQuote]) w) Hrange)
      as (d & Hd & ->).
    exists d. eexists. split; [reflexivity|]. cbn. repeat split; auto; first [lia | congruence].
  - destruct (randint_in_range _ _ w Hrange) as (d & Hd & ->).
    exists d. eexists. split; [reflexivity|]. cbn. rewrite app_nil_r. repeat split; auto; first [lia | congruence].
Qed.

(** X7. A tick whose range is empty (its maximum below its minimum) ends by
    the [ValueError] of [random.randint] before any timer is armed: the
    timers and the remembered handle are as before, so the chain of ticks
    ends there; in the posting branch the post has been queued all the
    same. *)
Theorem queue_quote_empty_range (w : World) :
  _stop w = false ->
  (tick_branch w).1.2 < (tick_branch w).1.1 ->
  exists w',
    queue_quote w = Raise ValueError w' /\
    timers w' = timers w /\ _timer w' = _timer w /\
    ready w' = (ready w ++ (tick_branch w).2)%list /\
    log w' = log w /\ draws w' = draws w.
Proof.
  intros Hrun. unfold tick_branch, queue_quote, mbind, M_bind, get, randint.
  rewrite Hrun.
  destruct (target w) as [ch|]; [unfold loop_time; destruct (Qlt_bool _ _)|];
    cbn [fst snd]; intros Hrange; apply Z.ltb_lt in Hrange.
  - rewrite Hrange. eexists. split; [reflexivity|]. cbn. rewrite app_nil_r. repeat split; auto.
  - unfold create_task, modify. cbn. rewrite Hrange.
    eexists. split; [reflexivity|]. cbn. repeat split; auto.
  - rewrite Hrange. eexists. split; [reflexivity|]. cbn. rewrite app_nil_r. repeat split; auto.
Qed.

(** X8. A post, delivered or refused, leaves the scheduler as it found it:
    flag, remembered handle, timers, queue, channel and time of the last
    message are unchanged, so the next tick takes the branch it would have
    taken without the post. *)
Theorem send_quote_keeps_schedule (w : World) :
  same_scheduler (world_of (send_quote w)) w /\
  tick_branch (world_of (send_quote w)) = tick_branch w.
Proof.
  pose proof (send_quote_scheduler w) as Hs. split; [exact Hs|].
  destruct Hs as (_ & _ & _ & _ & Ht & Hl).
  apply tick_branch_ext; [apply send_quote_setting | exact Ht | exact Hl].
Qed.

(** ** More on the command handler *)

Lemma int_of_time_floor (t : Q) :
  (0 <= t)%Q -> (inject_Z (int_of_time t) <= t)%Q /\ (t < inject_Z (int_of_time t) + 1)%Q.
Proof.
  destruct t as [n p]. unfold Qle, Qlt, int_of_time, Qplus, inject_Z. cbn.
  rewrite !Z.mul_1_r. intros Hn.
  rewrite Z.quot_div_nonneg by lia.
  pose proof (Z.mul_div_le n (Z.pos p) ltac:(lia)).
  pose proof (Z.mul_succ_div_gt n (Z.pos p) ltac:(lia)).
  split; nia.
Qed.

(** What a message does to the bot besides a possible post. *)
Lemma event_message_effect m w :
  let w' := world_of (event_message m w) in
  same_setting w' w /\ target w' = target w /\ _stop w' = _stop w /\
  last_message w' =
    match author m with
    | None => last_message w
    | Some a =>
        if String.eqb (PyStr.lower (name a)) (PyStr.lower (nick w))
        then last_message w else int_of_time (now w)
    end.
Proof.
  cbn zeta. rewrite event_message_eq.
  set (w1 := set_last_message (int_of_time (now w)) w).
  assert (Hq : same_setting (world_of (send_quote w1)) w /\
               target (world_of (send_quote w1)) = target w /\
               _stop (world_of (send_quote w1)) = _stop w /\
               last_message (world_of (send_quote w1)) = int_of_time (now w)).
  { destruct (send_quote_scheduler w1) as (Hs & _ & _ & _ & Ht & Hl).
    destruct (send_quote_setting w1) as (Hc & Hn & Hk & He).
    unfold same_setting. rewrite Hs, Ht, Hl, Hc, Hn, Hk, He. cbn. auto 10. }
  assert (H1 : same_setting w1 w /\ target w1 = target w /\ _stop w1 = _stop w /\
               last_message w1 = int_of_time (now w))
    by (unfold same_setting; cbn; auto 10).
  assert (H0 : same_setting w w) by (unfold same_setting; auto).
  destruct (author m) as [a|]; [|cbn; auto].
  destruct (String.eqb _ _); [cbn; auto|]. cbn zeta.
  destruct (target w) as [ch|]; [|exact H1].
  destruct (get_chatter ch (name a)); try exact H1.
  destruct (is_mod a && _); [exact Hq | exact H1].
Qed.

(** X9. Every message that is not a loop-back (author present, name other
    than the bot's, compared without case) sets [last_message] to the
    integer part of the loop time, whoever sent it, whatever it says and
    whether or not a channel is connected; an author-less message or one
    under the bot's own name changes nothing at all. *)
Theorem event_message_tracks_activity (m : Message) (w : World) :
  (forall a, author m = Some a ->
     PyStr.lower (name a) <> PyStr.lower (nick w) ->
     last_message (world_of (event_message m w)) = int_of_time (now w)) /\
  (author m = None \/
   (exists a, author m = Some a /\ PyStr.lower (name a) = PyStr.lower (nick w)) ->
   event_message m w = Ok tt w).
Proof.
  split.
  - intros a Ha Hne. destruct (event_message_effect m w) as (_ & _ & _ & ->).
    rewrite Ha. apply String.eqb_neq in Hne. now rewrite Hne.
  - rewrite event_message_eq. intros [-> | (a & -> & Heq)]; [reflexivity|].
    apply String.eqb_eq in Heq. now rewrite Heq.
Qed.

(** X10. A message that is not a loop-back opens the posting window: with a
    channel connected and the flag down, a tick that runs [d] seconds
    later, [d] at most the threshold of [chat_active_probe] less one,
    takes the posting branch, queues one post and arms one timer with a
    delay from [auto_quote_time]. *)
Theorem message_opens_posting_window (m : Message) (a : Author) (w : World) (d : Q) :
  author m = Some a ->
  PyStr.lower (name a) <> PyStr.lower (nick w) ->
  target w <> None ->
  _stop w = false ->
  (auto_quote_time (config w)).1 <= (auto_quote_time (config w)).2 ->
  (0 <= now w)%Q -> (0 <= d)%Q ->
  (d + 1 <= inject_Z (chat_active_probe (config w)).1)%Q ->
  let w' := set_now (now w + d)%Q (world_of (event_message m w)) in
  ~ chat_quiet w' /\
  tick_outcome w' (auto_quote_time (config w)) [TSendQuote].
Proof.
  intros Ha Hne Htgt Hrun Hrange Hnow Hd Hwin. cbn zeta.
  destruct (event_message_effect m w) as ((Hc & Hn & _ & _) & Ht & Hs & Hl).
  rewrite Ha in Hl. apply String.eqb_neq in Hne. rewrite Hne in Hl.
  set (w1 := world_of (event_message m w)) in *.
  destruct (int_of_time_floor (now w) Hnow) as [Hlo Hhi].
  assert (Hactive : ~ (inject_Z (chat_active_probe (config w)).1
                       < now w + d - inject_Z (int_of_time (now w)))%Q) by lra.
  assert (Hq : ~ chat_quiet (set_now (now w + d)%Q w1)).
  { unfold chat_quiet. cbn. now rewrite Hc, Hl. }
  split; [exact Hq|].
  assert (Hb : tick_branch (set_now (now w + d)%Q w1) =
               (auto_quote_time (config w), [TSendQuote])).
  { unfold tick_branch. cbn. rewrite Ht, Hc, Hl.
    destruct (target w); [|congruence].
    rewrite <- Qlt_bool_iff in Hactive. apply not_true_is_false in Hactive.
    now rewrite Hactive. }
  destruct (queue_quote_armed (set_now (now w + d)%Q w1)) as (x & w2 & Hrun2 & Hx & Hr & Hts & Htm & Hlog & Hst & _).
  - cbn. now rewrite Hs.
  - now rewrite Hb.
  - rewrite Hb in *. cbn [fst snd] in *.
    exists x, w2. repeat split; try assumption; lia.
Qed.

(** ** The connectivity bootstrap *)

Lemma set_target_None_id w : target w = None -> set_target None w = w.
Proof. destruct w. cbn. now intros ->. Qed.

(** The join loop when the channel resolves at the attempt number [k]. *)
Lemma join_until_target_resolves ch : forall k fuel w,
  target w = None ->
  (forall j, (j < k)%nat -> channel_of (env w) (joins w + j)%nat = None) ->
  channel_of (env w) (joins w + k)%nat = Some ch ->
  (k < fuel)%nat ->
  exists w1,
    join_until_target fuel w = Ok tt w1 /\
    target w1 = Some ch /\ joins w1 = (joins w + S k)%nat /\
    log w1 = (log w ++ repeat (EvJoin (channel (config w))) (S k))%list /\
    same_loop w1 w /\ same_setting w1 w /\ sends w1 = sends w /\
    last_message w1 = last_message w.
Proof.
  induction k as [|k IH]; intros fuel w Hnone Hmiss Hhit Hfuel;
    (destruct fuel as [|fuel]; [lia|]); cbn [join_until_target]; rewrite Hnone.
  - rewrite Nat.add_0_r in Hhit. rewrite Hhit.
    destruct fuel; cbn [join_until_target set_target target];
      (eexists; split; [reflexivity|]); unfold same_loop, same_setting; cbn;
      repeat split; auto; lia.
  - pose proof (Hmiss 0%nat ltac:(lia)) as H0. rewrite Nat.add_0_r in H0. rewrite H0.
    set (w1 := record_join (channel (config w)) w).
    assert (E : set_target None w1 = w1) by (apply set_target_None_id; exact Hnone).
    rewrite E.
    destruct (IH fuel w1) as (w2 & Hrun & Ht & Hj & Hlog & Hloop & Hset & Hsends & Hlast).
    + exact Hnone.
    + intros j Hj. cbn. rewrite <- Nat.add_succ_r.
      apply Hmiss. lia.
    + cbn. rewrite <- Nat.add_succ_r. exact Hhit.
    + lia.
    + exists w2. split; [exact Hrun|]. split; [exact Ht|].
      split; [rewrite Hj; cbn; lia|].
      split; [rewrite Hlog; cbn; now rewrite <- app_assoc|].
      auto.
Qed.

(** X11. When the channel resolves at the attempt number [k] of the join
    loop, [event_ready] has joined [k + 1] times, holds that channel, and
    has put the greeting on the wire after the joins; the first tick is
    queued exactly when the greeting was delivered: a refused greeting
    ends [event_ready] by the exception of the send and the scheduler is
    never started. *)
Theorem event_ready_joins_then_greets (w : World) (ch : Channel) (k fuel : nat) :
  target w = None ->
  (forall j, (j < k)%nat -> channel_of (env w) (joins w + j)%nat = None) ->
  channel_of (env w) (joins w + k)%nat = Some ch ->
  (k < fuel)%nat ->
  let delivered := send_succeeds (env w) (sends w) in
  let w' := world_of (event_ready fuel w) in
  event_ready fuel w = (if delivered then Ok tt w' else Raise SendFailure w') /\
  target w' = Some ch /\
  joins w' = (joins w + S k)%nat /\
  log w' = (log w ++ repeat (EvJoin (channel (config w))) (S k)
                  ++ [EvSend greeting delivered])%list /\
  ready w' = (ready w ++ if delivered then [TQueueQuote] else [])%list /\
  timers w' = timers w.
Proof.
  intros Hnone Hmiss Hhit Hfuel. cbn zeta.
  destruct (join_until_target_resolves ch k fuel w Hnone Hmiss Hhit Hfuel)
    as (w1 & Hrun & Ht & Hj & Hlog & (_ & _ & Hts & Hr) & (_ & _ & _ & He) & Hs & _).
  unfold event_ready, mbind, M_bind. rewrite Hrun. unfold send, create_task, modify.
  rewrite He, Hs.
  destruct (send_succeeds (env w) (sends w)); cbn;
    rewrite Ht, Hj, Hlog, Hr, Hts, <- ?app_assoc, ?app_nil_r; repeat split; auto.
Qed.

(** X12. While no attempt resolves the channel, [event_ready] only joins: it
    is still in its loop after [fuel] attempts, with nothing sent, no tick
    queued and no channel held.  With a channel already held it does not
    join at all. *)
Theorem event_ready_waits_for_channel (w : World) (fuel : nat) :
  (target w = None ->
   (forall j, (j < fuel)%nat -> channel_of (env w) (joins w + j)%nat = None) ->
   exists w',
     event_ready fuel w = Spin w' /\
     target w' = None /\ sends w' = sends w /\ ready w' = ready w /\
     log w' = (log w ++ repeat (EvJoin (channel (config w))) fuel)%list) /\
  (target w <> None ->
   joins (world_of (event_ready fuel w)) = joins w /\
   log (world_of (event_ready fuel w)) =
     (log w ++ [EvSend greeting (send_succeeds (env w) (sends w))])%list).
Proof.
  split.
  - revert w. induction fuel as [|fuel IH]; intros w Hnone Hmiss.
    + unfold event_ready, mbind, M_bind. cbn [join_until_target]. rewrite Hnone.
      exists w. cbn. rewrite app_nil_r. auto.
    + unfold event_ready, mbind, M_bind in *. cbn [join_until_target]. rewrite Hnone.
      pose proof (Hmiss 0%nat ltac:(lia)) as H0. rewrite Nat.add_0_r in H0. rewrite H0.
      set (w1 := record_join (channel (config w)) w).
      assert (E : set_target None w1 = w1) by (apply set_target_None_id; exact Hnone).
      rewrite E.
      destruct (IH w1) as (w' & Hrun & Ht & Hs & Hr & Hlog).
      * exact Hnone.
      * intros j Hj. cbn. rewrite <- Nat.add_succ_r.
        apply Hmiss. lia.
      * exists w'. split; [exact Hrun|]. repeat split; try assumption.
        rewrite Hlog. cbn. now rewrite <- app_assoc.
  - intros Hsome. unfold event_ready, mbind, M_bind.
    destruct fuel; cbn [join_until_target]; destruct (target w); try congruence;
      unfold send; destruct (send_succeeds (env w) (sends w)); cbn; auto.
Qed.

(** ** More on the cosmetic transform and the text that is sent *)

Lemma len_append (a b : string) : PyStr.len (a ++ b) = PyStr.len a + PyStr.len b.
Proof.
  unfold PyStr.len. induction a as [|c a IH]; cbn.
  - reflexivity.
  - change (String c a ++ b) with (String c (a ++ b)).
    cbn [String.length]. lia.
Qed.

Lemma length_letters s : String.length (OwoSpec.letters s) = String.length s.
Proof. induction s as [|c s IH]; cbn; [reflexivity | now rewrite IH]. Qed.

Lemma length_ove_to_wuw_bounded n : forall s,
  (String.length s <= n)%nat ->
  String.length (OwoSpec.ove_to_wuw s) = String.length s.
Proof.
  induction n as [|n IH]; intros s Hn.
  - destruct s; [reflexivity | cbn in Hn; lia].
  - destruct s as [|a t]; [reflexivity|]. cbn [String.length] in Hn.
    assert (Ht : String.length (OwoSpec.ove_to_wuw t) = String.length t)
      by (apply IH; lia).
    destruct t as [|b [|c r]].
    + reflexivity.
    + cbn [OwoSpec.ove_to_wuw String.length] in *. lia.
    + rewrite ove_to_wuw_three.
      assert (Hr : String.length (OwoSpec.ove_to_wuw r) = String.length r)
        by (apply IH; cbn [String.length] in Hn; lia).
      destruct (_ && _); cbn [String.length]; [now rewrite Hr | now rewrite Ht].
Qed.

Lemma len_owo_magic s : PyStr.len (owo_magic s) = PyStr.len s.
Proof.
  rewrite owo_magic_refines. unfold PyStr.len, OwoSpec.festive.
  rewrite length_letters, (length_ove_to_wuw_bounded (String.length s)); [reflexivity | lia].
Qed.

Lemma letter_not_rl c :
  OwoSpec.letter c <> "R"%char /\ OwoSpec.letter c <> "r"%char /\
  OwoSpec.letter c <> "L"%char /\ OwoSpec.letter c <> "l"%char.
Proof.
  unfold OwoSpec.letter.
  destruct (Ascii.eqb_spec c "R"); [repeat split; discriminate|].
  destruct (Ascii.eqb_spec c "r"); [repeat split; discriminate|].
  destruct (Ascii.eqb_spec c "L"); [repeat split; discriminate|].
  destruct (Ascii.eqb_spec c "l"); [repeat split; discriminate|].
  repeat split; assumption.
Qed.

(** X13. [owo_magic] keeps the length of its input, and its output holds
    none of the letters [R], [r], [L], [l]. *)
Theorem owo_magic_shape (s : string) :
  PyStr.len (owo_magic s) = PyStr.len s /\
  forall c, In c (list_ascii_of_string (owo_magic s)) ->
    c <> "R"%char /\ c <> "r"%char /\ c <> "L"%char /\ c <> "l"%char.
Proof.
  split; [apply len_owo_magic|].
  rewrite owo_magic_refines. unfold OwoSpec.festive.
  generalize (OwoSpec.ove_to_wuw s). intros t c.
  induction t as [|x t IH]; cbn; [tauto|].
  intros [<- | Hin]; [apply letter_not_rl | now apply IH].
Qed.

(** X14. With a channel connected, the one text a post sends is the quote
    plus its two markers: 12 characters more than the quote on the festive
    path, 24 more otherwise; the quote is either strictly between the
    configured bounds in length or the 20-character fallback, so the text
    is never longer than the larger of [max_length - 1] and 20, plus 24. *)
Theorem send_quote_text_length (w : World) (ch : Channel) :
  target w = Some ch ->
  exists q d,
    log (world_of (send_quote w)) =
      (log w ++ [EvSend (announcement q d) (send_succeeds (env w) (sends w))])%list /\
    PyStr.len (announcement q d) = PyStr.len q + (if d =? 0 then 12 else 24) /\
    ((quote_length (config w)).1 < PyStr.len q < (quote_length (config w)).2 \/
     q = fallback_quote) /\
    PyStr.len (announcement q d) <= Z.max ((quote_length (config w)).2 - 1) 20 + 24.
Proof.
  intros Hch.
  destruct (send_quote_connected w ch Hch) as (q & k & d & Hq & _ & _ & Hs).
  destruct (requested_frame k w) as (_ & Hlog & Hsends & Henv & _).
  assert (Hlen : PyStr.len (announcement q d) = PyStr.len q + (if d =? 0 then 12 else 24)).
  { unfold announcement. destruct (d =? 0); rewrite !len_append, ?len_owo_magic;
      unfold PyStr.len; cbn [String.length]; lia. }
  assert (Hquote : (quote_length (config w)).1 < PyStr.len q < (quote_length (config w)).2
                   \/ q = fallback_quote).
  { unfold get_quote in Hq.
    destruct (get_quote_loop_spec 100 (quote_length (config w)).1
                (quote_length (config w)).2 w)
      as [(j & _ & _ & Hok & Hrun) | [_ Hrun]];
      rewrite Hrun in Hq; injection Hq as <- _.
    - left. now apply acceptable_bounds.
    - now right. }
  exists q, d. split; [|split; [exact Hlen | split; [exact Hquote|]]].
  - rewrite Hs, send_world.
    change (log (requested k w) ++
              [EvSend (announcement q d)
                 (send_succeeds (env (requested k w)) (sends (requested k w)))]
            = log w ++ [EvSend (announcement q d) (send_succeeds (env w) (sends w))])%list.
    now rewrite Hlog, Hsends, Henv.
  - rewrite Hlen.
    assert (Hfb : PyStr.len fallback_quote = 20) by reflexivity.
    destruct Hquote as [Hb | ->]; destruct (d =? 0); lia.
Qed.

(** ** More on the life of the scheduler *)

Lemma same_setting_trans a b c :
  same_setting a b -> same_setting b c -> same_setting a c.
Proof. unfold same_setting. intuition congruence. Qed.

Lemma join_until_target_setting fuel : forall w,
  same_setting (world_of (join_until_target fuel w)) w.
Proof.
  induction fuel as [|fuel IH]; intros w; cbn [join_until_target].
  - destruct (target w); unfold same_setting; cbn; auto.
  - destruct (target w); [unfold same_setting; cbn; auto|].
    eapply same_setting_trans; [apply IH|]. unfold same_setting. cbn. auto.
Qed.

(** [event_ready] returns normally only with the first tick queued. *)
Lemma event_ready_ok fuel w w1 :
  event_ready fuel w = Ok tt w1 ->
  ready w1 = (ready w ++ [TQueueQuote])%list /\ timers w1 = timers w /\
  _stop w1 = _stop w /\ config w1 = config w.
Proof.
  pose proof (join_until_target_loop fuel w) as Hl.
  pose proof (join_until_target_setting fuel w) as Hs.
  unfold event_ready, mbind, M_bind.
  destruct (join_until_target fuel w) as [[] v | e v | v]; try discriminate.
  cbn [world_of] in Hl, Hs.
  destruct Hl as (Hstop & _ & Hts & Hr). destruct Hs as (Hc & _).
  unfold send. destruct (send_succeeds (env v) (sends v)); [|discriminate].
  unfold create_task, modify. intros [= <-]. cbn. rewrite Hr, Hts, Hstop, Hc. auto.
Qed.

Lemma tick_branch_range_ok w :
  config_ok (config w) -> (tick_branch w).1.1 <= (tick_branch w).1.2.
Proof.
  intros [[_ H1] [_ H2] [_ H3] _]. unfold tick_branch.
  destruct (target w); [destruct (Qlt_bool _ _)|]; assumption.
Qed.

Lemma tick_branch_no_tick w : List.filter is_tick (tick_branch w).2 = [].
Proof.
  unfold tick_branch. destruct (target w); [destruct (Qlt_bool _ _)|]; reflexivity.
Qed.

Lemma ticking_on_same s s' :
  same_loop (world s') (world s) -> config (world s') = config (world s) ->
  ticking_on s -> ticking_on s'.
Proof.
  intros (Hs & _ & Hts & Hr) Hc (H1 & H2 & H3 & H4).
  unfold ticking_on, queued, pending in *. rewrite Hs, Hts, Hr, Hc. auto.
Qed.

Lemma ticking_on_exec a s s' :
  routine a = true -> exec a s = Some s' -> ticking_on s -> ticking_on s'.
Proof.
  destruct a as [fuel | m | | h | d | ]; cbn [routine exec]; try discriminate; intros _.
  - intros [= <-]. apply ticking_on_same; cbn [world].
    + apply event_message_loop.
    + now destruct (event_message_effect m (world s)) as ((-> & _) & _).
  - destruct (ready (world s)) as [|t rest] eqn:Hr; [discriminate|].
    intros [= <-] (Hstop & Hone & Hcb & Hcfg).
    destruct t; cbn [run_task].
    + assert (Hq : queued (world s) = S (queued (set_ready rest (world s))))
        by (unfold queued; now rewrite Hr).
      assert (Hp : pending (world s) = []) by (apply length_0_nil; lia).
      destruct (queue_quote_armed (set_ready rest (world s)))
        as (d & w' & Hrun & _ & Hr' & Hts & _ & _ & Hstop' & (Hc & _) & _).
      { exact Hstop. }
      { apply tick_branch_range_ok. exact Hcfg. }
      rewrite Hrun. cbn [world_of].
      assert (Hp' : pending w' = [tick_timer (length (timers (world s))) (now (world s)) d]).
      { unfold pending. rewrite Hts, List.filter_app.
        change (List.filter live (timers (set_ready rest (world s))))
          with (pending (world s)). now rewrite Hp. }
      unfold ticking_on. cbn [world]. rewrite Hp', Hc.
      split; [exact Hstop'|]. split; [|split; [|exact Hcfg]].
      * unfold queued. rewrite Hr', List.filter_app, tick_branch_no_tick, app_nil_r.
        change (length (List.filter is_tick (ready (set_ready rest (world s)))))
          with (queued (set_ready rest (world s))). cbn [length]. lia.
      * intros t [<- | []]. reflexivity.
    + assert (H0 : ticking_on {| world := set_ready rest (world s); readies := readies s |}).
      { unfold ticking_on, queued in *. cbn [world]. rewrite Hr in Hone. cbn in *. auto. }
      revert H0. apply ticking_on_same; cbn [world].
      * apply same_scheduler_loop, send_quote_scheduler.
      * now destruct (send_quote_setting (set_ready rest (world s))) as (-> & _).
  - unfold fire.
    destruct (List.find _ _) as [t|] eqn:Hfind; [|discriminate].
    destruct (live t && _) eqn:Hlive; [|discriminate].
    intros [= <-] (Hstop & Hone & Hcb & Hcfg).
    apply List.find_some in Hfind. destruct Hfind as [Hin Hid].
    apply Nat.eqb_eq in Hid. apply andb_true_iff in Hlive. destruct Hlive as [Hlive _].
    assert (Ht : In t (pending (world s))) by (apply List.filter_In; auto).
    pose proof (fire_pending_lt h (timers (world s)) t Hin Hlive Hid) as Hlt.
    assert (Hlen : (1 <= length (pending (world s)))%nat)
      by (destruct (pending (world s)); [destruct Ht | cbn; lia]).
    assert (Hp' : List.filter live (map (fire_timer h) (timers (world s))) = []).
    { apply length_0_nil. unfold pending in *. lia. }
    unfold ticking_on, pending, queued. cbn. rewrite Hp', (Hcb t Ht).
    split; [exact Hstop|]. split; [|split; [|exact Hcfg]].
    + rewrite List.filter_app, length_app. unfold queued in Hone. cbn. lia.
    + intros x [].
  - destruct (Qle_bool 0 d); [|discriminate]. intros [= <-].
    apply ticking_on_same; [unfold same_loop; cbn; auto | reflexivity].
Qed.

(** X15. Once [event_ready] has returned normally under a well-formed
    configuration, the scheduler keeps ticking: after any sequence of
    messages, task runs, timer firings and passages of time the flag is
    still down and exactly one tick is on its way, either queued or as the
    one outstanding timer. *)
Theorem scheduler_keeps_ticking (e : Env) (c : Config) (n : string) (t0 : Q)
    (fuel : nat) (w1 : World) (acts : list Action) (s : Sys) :
  config_ok c ->
  event_ready fuel (init_world e c n t0) = Ok tt w1 ->
  forallb routine acts = true ->
  run acts {| world := w1; readies := 1 |} = Some s ->
  _stop (world s) = false /\
  (queued (world s) + length (pending (world s)) = 1)%nat.
Proof.
  intros Hcfg Hready Hacts Hrun.
  destruct (event_ready_ok _ _ _ Hready) as (Hr & Hts & Hstop & Hc).
  assert (H0 : ticking_on {| world := w1; readies := 1 |}).
  { unfold ticking_on, queued, pending. cbn [world]. rewrite Hr, Hts, Hstop, Hc. cbn.
    split; [reflexivity|]. split; [reflexivity|]. split; [tauto | exact Hcfg]. }
  assert (Hgo : forall acts s0 s', forallb routine acts = true ->
            run acts s0 = Some s' -> ticking_on s0 -> ticking_on s').
  { clear. induction acts as [|a acts IH]; intros s0 s'; cbn [forallb run].
    - now intros _ [= <-].
    - intros Hall. apply andb_true_iff in Hall. destruct Hall as [Ha Hall].
      destruct (exec a s0) as [s1|] eqn:He; [|discriminate].
      intros Hrun H0. eapply IH; [exact Hall | exact Hrun|].
      eapply ticking_on_exec; eassumption. }
  destruct (Hgo acts _ s Hacts Hrun H0) as (H1 & H2 & _). auto.
Qed.

(** X16. The timer the bot remembers when [stop] is called never runs its
    callback: whatever happens after the stop, the loop has no outstanding
    timer under that handle to fire. *)
Theorem stop_silences_remembered_timer (w : World) (h r : nat)
    (more : list Action) (s' : Sys) :
  _timer w = Some h ->
  run more {| world := world_of (stop w); readies := r |} = Some s' ->
  fire h (world s') = None.
Proof.
  intros Hh Hrun.
  assert (H0 : silenced h {| world := world_of (stop w); readies := r |}).
  { destruct (stop_scheduler w) as (Hs & _ & Hts & _).
    split; cbn [world]; [rewrite Hs; apply _stop_halted|].
    rewrite Hts, timers_halted, Hh.
    intros t' Hin Hid. apply List.in_map_iff in Hin. destruct Hin as (t0 & <- & Hin).
    unfold cancel_timer in *. destruct (Nat.eqb_spec (tid t0) h); [reflexivity|].
    contradiction. }
  assert (Hgo : forall acts s0 s1, run acts s0 = Some s1 -> silenced h s0 -> silenced h s1).
  { clear. induction acts as [|a acts IH]; intros s0 s1; cbn [run].
    - now intros [= <-].
    - destruct (exec a s0) as [s2|] eqn:He; [|discriminate].
      intros Hrun H0. eapply IH; [exact Hrun|]. eapply silenced_exec; eassumption. }
  destruct (Hgo more _ s' Hrun H0) as [_ Hall].
  unfold fire. destruct (List.find _ _) as [t|] eqn:Hfind; [|reflexivity].
  apply List.find_some in Hfind. destruct Hfind as [Hin Hid]. apply Nat.eqb_eq in Hid.
  unfold live. now rewrite (Hall t Hin Hid).
Qed.

(** ** The added properties at sample inputs *)

Lemma queue_quote_empty_range_witness :
  let w := Misconfigured.joined in
  exists w',
    queue_quote w = Raise ValueError w' /\
    timers w' = timers w /\ _timer w' = _timer w /\
    ready w' = (ready w ++ (tick_branch w).2)%list /\
    log w' = log w /\ draws w' = draws w.
Proof.
  apply (queue_quote_empty_range Misconfigured.joined).
  - reflexivity.
  - vm_compute. reflexivity.
Defined.

Example empty_range_still_posts :
  tick_branch Misconfigured.joined = ((120, 60), [TSendQuote]) /\
  ready (world_of (queue_quote Misconfigured.joined)) = [TQueueQuote; TSendQuote] /\
  timers (world_of (queue_quote Misconfigured.joined)) = [].
Proof. vm_compute. auto. Qed.

Lemma event_message_tracks_activity_witness :
  let w := set_now (1234 # 10) (Sample.joined Sample.reliable) in
  last_message (world_of (event_message Inbox.from_viewer w)) = 123 /\
  event_message Inbox.from_self w = Ok tt w.
Proof.
  split.
  - apply (proj1 (event_message_tracks_activity Inbox.from_viewer
                    (set_now (1234 # 10) (Sample.joined Sample.reliable)))
             {| name := "vic"; is_mod := false |}).
    + reflexivity.
    + vm_compute. discriminate.
  - apply (proj2 (event_message_tracks_activity Inbox.from_self
                    (set_now (1234 # 10) (Sample.joined Sample.reliable)))).
    right. exists {| name := "snergebot"; is_mod := true |}. split; reflexivity.
Defined.

Lemma message_opens_posting_window_witness :
  let w := set_now (1234 # 10) (Sample.joined Sample.reliable) in
  let w' := set_now (now w + 299)%Q (world_of (event_message Inbox.from_viewer w)) in
  ~ chat_quiet w' /\
  tick_outcome w' (auto_quote_time (config w)) [TSendQuote].
Proof.
  apply (message_opens_posting_window Inbox.from_viewer
           {| name := "vic"; is_mod := false |}
           (set_now (1234 # 10) (Sample.joined Sample.reliable)) 299).
  - reflexivity.
  - vm_compute. discriminate.
  - vm_compute. discriminate.
  - reflexivity.
  - vm_compute. discriminate.
  - vm_compute. discriminate.
  - vm_compute. discriminate.
  - vm_compute. discriminate.
Defined.

Lemma event_ready_joins_then_greets_witness :
  let w := Sample.fresh Sample.reliable in
  let delivered := send_succeeds (env w) (sends w) in
  let w' := world_of (event_ready 3 w) in
  event_ready 3 w = (if delivered then Ok tt w' else Raise SendFailure w') /\
  target w' = Some Sample.room /\
  joins w' = (joins w + 2)%nat /\
  log w' = (log w ++ repeat (EvJoin (channel (config w))) 2
                  ++ [EvSend greeting delivered])%list /\
  ready w' = (ready w ++ if delivered then [TQueueQuote] else [])%list /\
  timers w' = timers w.
Proof.
  apply (event_ready_joins_then_greets (Sample.fresh Sample.reliable) Sample.room 1 3).
  - reflexivity.
  - intros j Hj. assert (j = 0%nat) as -> by lia. reflexivity.
  - reflexivity.
  - lia.
Defined.

Lemma event_ready_waits_for_channel_witness :
  (let w := Sample.fresh Sample.reliable in
   exists w',
     event_ready 1 w = Spin w' /\
     target w' = None /\ sends w' = sends w /\ ready w' = ready w /\
     log w' = (log w ++ repeat (EvJoin (channel (config w))) 1)%list) /\
  (let w := Sample.joined Sample.reliable in
   joins (world_of (event_ready 0 w)) = joins w /\
   log (world_of (event_ready 0 w)) =
     (log w ++ [EvSend greeting (send_succeeds (env w) (sends w))])%list).
Proof.
  split.
  - apply (proj1 (event_ready_waits_for_channel (Sample.fresh Sample.reliable) 1)).
    + reflexivity.
    + intros j Hj. assert (j = 0%nat) as -> by lia. reflexivity.
  - apply (proj2 (event_ready_waits_for_channel (Sample.joined Sample.reliable) 0)).
    vm_compute. discriminate.
Defined.

Lemma send_quote_text_length_witness :
  let w := Sample.joined Sample.reliable in
  exists q d,
    log (world_of (send_quote w)) =
      (log w ++ [EvSend (announcement q d) (send_succeeds (env w) (sends w))])%list /\
    PyStr.len (announcement q d) = PyStr.len q + (if d =? 0 then 12 else 24) /\
    ((quote_length (config w)).1 < PyStr.len q < (quote_length (config w)).2 \/
     q = fallback_quote) /\
    PyStr.len (announcement q d) <= Z.max ((quote_length (config w)).2 - 1) 20 + 24.
Proof.
  apply (send_quote_text_length (Sample.joined Sample.reliable) Sample.room).
  reflexivity.
Defined.

Lemma scheduler_keeps_ticking_witness :
  _stop (world Day.evening) = false /\
  (queued (world Day.evening) + length (pending (world Day.evening)) = 1)%nat.
Proof.
  apply (scheduler_keeps_ticking Sample.reliable Sample.settings "SnergeBot" (5 # 2) 3
           (Sample.joined Sample.reliable) Day.script Day.evening).
  - split; unfold range_ok; cbn; lia.
  - vm_compute. reflexivity.
  - reflexivity.
  - vm_compute. reflexivity.
Defined.

Example day_evening :
  ready (world Day.evening) = [TSendQuote] /\
  map tid (pending (world Day.evening)) = [1%nat] /\
  last_message (world Day.evening) = 2.
Proof. vm_compute. auto. Qed.

Lemma stop_silences_remembered_timer_witness :
  fire 0 (world Day.night) = None.
Proof.
  apply (stop_silences_remembered_timer (Sample.ticking Sample.reliable) 0 1
           Day.after_stop Day.night).
  - reflexivity.
  - vm_compute. reflexivity.
Defined.

Example night_timer_was_due :
  map twhen (timers (world Day.night)) = [(5 # 2) + inject_Z 96]%Q /\
  Qle_bool ((5 # 2) + inject_Z 96) (now (world Day.night)) = true /\
  map tcancelled (timers (world Day.night)) = [true].
Proof. vm_compute. auto. Qed.

(** X17. A message triggers a post exactly when it passes every check of
    [event_message]: then one announcement is put on the wire; in every
    other case (no author, the bot's own name, no channel, author unknown
    to the channel or only partially known, not a moderator, content not
    the command) nothing is sent, no quote is requested and no number is
    drawn. *)
Theorem event_message_posts_iff_authorised (m : Message) (w : World) :
  if authorised w m
  then exists q d, 0 <= d <= 200 /\
         log (world_of (event_message m w)) =
           (log w ++ [EvSend (announcement q d) (send_succeeds (env w) (sends w))])%list /\
         sends (world_of (event_message m w)) = S (sends w)
  else exists w', event_message m w = Ok tt w' /\ silent w w'.
Proof.
  rewrite event_message_eq. unfold authorised, silent.
  destruct (author m) as [a|]; [|eexists; split; [reflexivity | auto 10]].
  destruct (target w) as [ch|] eqn:Hch.
  - destruct (String.eqb _ _); cbn [negb andb];
      [eexists; split; [reflexivity | auto 10]|].
    cbn zeta.
    destruct (get_chatter ch (name a)); cbn [andb];
      try (eexists; split; [reflexivity | cbn; auto 10]).
    destruct (is_mod a); cbn [andb];
      [|eexists; split; [reflexivity | cbn; auto 10]].
    destruct (is_snerge_command _);
      [|eexists; split; [reflexivity | cbn; auto 10]].
    pose proof (send_quote_log (set_last_message (int_of_time (now w)) w)) as H.
    change (target (set_last_message (int_of_time (now w)) w)) with (target w) in H.
    rewrite Hch in H. exact H.
  - destruct (String.eqb _ _); eexists; (split; [reflexivity | cbn; auto 10]).
Qed.

Example partial_chatter_ignored :
  authorised (Sample.joined Sample.reliable) Outbox.from_lurker = false /\
  log (world_of (event_message Outbox.from_lurker (Sample.joined Sample.reliable)))
    = log (Sample.joined Sample.reliable).
Proof. vm_compute. auto. Qed.

Example near_miss_ignored :
  authorised (Sample.joined Sample.reliable) Outbox.near_miss = false /\
  log (world_of (event_message Outbox.near_miss (Sample.joined Sample.reliable)))
    = log (Sample.joined Sample.reliable).
Proof. vm_compute. auto. Qed.
